(** * The auction engine of leandrorichard/auction, embedded in Rocq

    The development follows the three Go files of the package:
    - [bidder.go]: the [bidder] and [NewBidder] records, [toNewBidder(s)],
      the sentinel [ErrExceededMaxBid];
    - the in-memory store ([InMemoryStore]: [AddBidder], [GetBidder],
      [UpdateBidder], [ListBidders]);
    - [auction.go]: [NewAuction], [PlaceBid], [DetermineWinner], [isWinner],
      [validateAuctionData], [validateBidder].

    Modelling choices.
    - [float64] is IEEE 754 binary64, taken from the Standard Library's
      executable specification [SpecFloat] (precision 53, emax 1024): [+] is
      [SFadd] (round to nearest even), [<], [<=] and [==] are [SFltb], [SFleb]
      and [SFeqb]; every comparison with a NaN is false, as in Go.
    - [uuid.UUID] is a [[16]byte] array used only through [==] and as a map
      key; it is represented by the number its 128 bits denote.
    - [time.Time] is an instant on the time line, a number of nanoseconds
      counted from the zero [time.Time{}]; [Before] is [<].  [time.Now()] is an
      input of [PlaceBid].
    - A Go [error] is a tree: the package-level sentinel, a value allocated by
      [errors.New], or a value built by [fmt.Errorf], which wraps its [%w]
      operand.  Messages are kept symbolically (format string and operands).
    - The store is a [map[uuid.UUID]*bidder].  Every pointer put into the map
      points to a record that no one writes afterwards ([toNewBidders]
      allocates one record per input, [PlaceBid] hands over its local copy),
      and [GetBidder]/[ListBidders] copy the records out, so the map is
      modelled by value: [gmap N bidder].  Go iterates over a map in an
      unspecified order: [ListBidders] relates the store to every
      permutation of its records. *)

From Stdlib Require Import ZArith List Bool Lia.
From Stdlib Require Import Floats.SpecFloat.
From stdpp Require Import base gmap strings list fin_maps.

Local Open Scope Z_scope.

(** ** float64 *)

Module Float64.

Definition prec : Z := 53.
Definition emax : Z := 1024.

Abbreviation float64 := spec_float.

Definition add (x y : float64) : float64 := SFadd prec emax x y.
Definition ltb (x y : float64) : bool := SFltb x y.
Definition leb (x y : float64) : bool := SFleb x y.
Definition eqb (x y : float64) : bool := SFeqb x y.
(** Go's [x > y] on floats. *)
Definition gtb (x y : float64) : bool := SFltb y x.

Definition is_nan (x : float64) : bool :=
  match x with S754_nan => true | _ => false end.

(** The float64 nearest to an integer (exact up to 2^53), as a Go constant
    such as [78.00] denotes it. *)
Definition of_Z (z : Z) : float64 := binary_normalize prec emax z 0 false.

Definition NaN : float64 := S754_nan.

(** The zero value of a [float64] field. *)
Definition zero : float64 := S754_zero false.

Definition valid (x : float64) : bool := valid_binary prec emax x.

(** [SFcompare] orders the floats that are not NaN by class and sign, then
    by exponent, then by mantissa; [key] is the position of a float in that
    lexicographic order, and NaN has none. *)
Definition key (x : float64) : option (Z * Z * Z) :=
  match x with
  | S754_nan => None
  | S754_infinity true => Some (-2, 0, 0)
  | S754_infinity false => Some (2, 0, 0)
  | S754_zero _ => Some (0, 0, 0)
  | S754_finite false m e => Some (1, e, Zpos m)
  | S754_finite true m e => Some (-1, - e, Zneg m)
  end.

Definition key_cmp (a b : Z * Z * Z) : comparison :=
  let '(a1, a2, a3) := a in
  let '(b1, b2, b3) := b in
  match a1 ?= b1 with
  | Eq => match a2 ?= b2 with Eq => a3 ?= b3 | c => c end
  | c => c
  end.

Definition key_lt (a b : Z * Z * Z) : Prop :=
  let '(a1, a2, a3) := a in
  let '(b1, b2, b3) := b in
  a1 < b1 ∨ (a1 = b1 ∧ (a2 < b2 ∨ (a2 = b2 ∧ a3 < b3))).

End Float64.

Import Float64.

(** ** Identifiers and instants *)

Abbreviation UUID := N (only parsing).
Abbreviation Time := Z (only parsing).

(** [t.Before(u)] *)
Definition Before (t u : Time) : bool := Z.ltb t u.

(** ** bidder.go *)

Record bidder : Type := mkBidder {
  ID : UUID;
  Name : string;
  StartingBid : float64;
  MaxBid : float64;
  CurrentBid : float64;
  AutoIncrement : float64;
  LastBidTime : Time
}.

(** [bidder{}], the zero value: the "no winner yet" candidate of
    [DetermineWinner]. *)
Definition zero_bidder : bidder :=
  mkBidder 0%N EmptyString zero zero zero zero 0.

Module NewBidder.

Record t : Type := mk {
  ID : UUID;
  Name : string;
  StartingBid : float64;
  MaxBid : float64;
  CurrentBid : float64;
  AutoIncrement : float64;
  LastBidTime : Time
}.

End NewBidder.

Definition toNewBidder (bdr : NewBidder.t) : bidder :=
  {| ID := NewBidder.ID bdr;
     Name := NewBidder.Name bdr;
     StartingBid := NewBidder.StartingBid bdr;
     MaxBid := NewBidder.MaxBid bdr;
     CurrentBid := NewBidder.CurrentBid bdr;
     AutoIncrement := NewBidder.AutoIncrement bdr;
     LastBidTime := NewBidder.LastBidTime bdr |}.

Definition toNewBidders (bidders : list NewBidder.t) : list bidder :=
  toNewBidder <$> bidders.

(** ** Errors *)

(** An operand of a [fmt.Errorf] call other than the [%w] one. *)
Inductive fmt_arg : Type :=
| ArgFloat (f : float64)
| ArgUUID (id : UUID).

Inductive error : Type :=
| ErrExceededMaxBid
    (* the value of the package variable, allocated once *)
| errors_New (msg : string)
    (* a value allocated by this call of errors.New *)
| fmt_Errorf (format : string) (args : list fmt_arg)
    (* fmt.Errorf without a %w verb *)
| fmt_Errorf_w (format : string) (args : list fmt_arg) (wrapped : error).
    (* fmt.Errorf with one %w verb, whose operand is [wrapped] *)

(** [err.Unwrap()] *)
Definition Unwrap (err : error) : option error :=
  match err with
  | fmt_Errorf_w _ _ w => Some w
  | _ => None
  end.

(** [errors.Is(err, ErrExceededMaxBid)]: follow the [Unwrap] chain and
    compare each link with the sentinel by identity.  A value allocated by
    [errors.New] or by a [fmt.Errorf] call is never identical to it. *)
Fixpoint errors_Is_ErrExceededMaxBid (err : error) : bool :=
  match err with
  | ErrExceededMaxBid => true
  | errors_New _ => false
  | fmt_Errorf _ _ => false
  | fmt_Errorf_w _ _ w => errors_Is_ErrExceededMaxBid w
  end.

(** A Go result [(T, error)]: callers look at the value only when the
    error is nil. *)
Inductive result (A : Type) : Type :=
| Ok (a : A)
| Err (e : error).
Arguments Ok {A} a.
Arguments Err {A} e.

(** ** The in-memory store *)

Abbreviation Store := (gmap N bidder) (only parsing).

Definition NewInMemoryStore : Store := ∅.

Definition AddBidder (store : Store) (b : bidder) : Store * option error :=
  match store !! ID b with
  | Some _ => (store, Some (errors_New "bidder already exists"))
  | None => (<[ID b := b]> store, None)
  end.

Definition GetBidder (store : Store) (id : UUID) : result bidder :=
  match store !! id with
  | None => Err (errors_New "bidder not found")
  | Some bdr => Ok bdr
  end.

Definition UpdateBidder (store : Store) (b : bidder) : Store * option error :=
  (<[ID b := b]> store, None).

(** [ListBidders] ranges over the map, in an order that Go leaves open:
    [ListBidders store bdrs] says that [bdrs] is a slice the call may
    return. *)
Definition records (store : Store) : list bidder := (map_to_list store).*2.

Definition ListBidders (store : Store) (bdrs : list bidder) : Prop :=
  bdrs ≡ₚ records store.

(** Every record is stored under its own identifier, as [AddBidder] and
    [UpdateBidder] do it. *)
Definition keyed (store : Store) : Prop :=
  ∀ id b, store !! id = Some b → ID b = id.

(** ** auction.go *)

Module Auction.

Record t : Type := mk {
  storer : gmap N bidder;
  ID : UUID
}.

End Auction.

Module NewAuctionConfig.

Record t : Type := mk {
  Bidders : list NewBidder.t
}.

End NewAuctionConfig.

Module Winner.

Record t : Type := mk {
  ID : UUID;
  Name : string
}.

End Winner.

(** *** Validation *)

Definition validateBidder (b : NewBidder.t) : option error :=
  if leb (NewBidder.StartingBid b) zero then
    Some (fmt_Errorf "starting bid must be positive, got $%.2f"
            [ArgFloat (NewBidder.StartingBid b)])
  else if ltb (NewBidder.MaxBid b) (NewBidder.StartingBid b) then
    Some (fmt_Errorf
            "max bid $%.2f must be greater than or equal to starting bid $%.2f"
            [ArgFloat (NewBidder.MaxBid b); ArgFloat (NewBidder.StartingBid b)])
  else if leb (NewBidder.AutoIncrement b) zero then
    Some (fmt_Errorf "auto-increment must be positive, got $%.2f"
            [ArgFloat (NewBidder.AutoIncrement b)])
  else None.

(** The [for _, bidder := range na.Bidders] loop of [validateAuctionData],
    started with the identifiers seen so far. *)
Fixpoint validateBidders (seenIDs : gmap N bool) (bidders : list NewBidder.t)
  : option error :=
  match bidders with
  | [] => None
  | bidder :: rest =>
      match seenIDs !! NewBidder.ID bidder with
      | Some _ =>
          Some (fmt_Errorf "duplicate bidder ID detected: %s"
                  [ArgUUID (NewBidder.ID bidder)])
      | None =>
          match validateBidder bidder with
          | Some err =>
              Some (fmt_Errorf_w "invalid bidder data for bidder ID %s: %w"
                      [ArgUUID (NewBidder.ID bidder)] err)
          | None =>
              validateBidders (<[NewBidder.ID bidder := true]> seenIDs) rest
          end
      end
  end.

Definition validateAuctionData (na : NewAuctionConfig.t) : option error :=
  if (length (NewAuctionConfig.Bidders na) <=? 1)%nat then
    Some (errors_New "auction must have at least two bidders")
  else validateBidders ∅ (NewAuctionConfig.Bidders na).

(** *** NewAuction *)

(** The [for _, bdr := range bdrs] loop of [NewAuction]. *)
Fixpoint addBidders (store : gmap N bidder) (bdrs : list bidder)
  : gmap N bidder * option error :=
  match bdrs with
  | [] => (store, None)
  | bdr :: rest =>
      match AddBidder store bdr with
      | (store', Some err) =>
          (store', Some (fmt_Errorf_w "failed to add bidder: %w" [] err))
      | (store', None) => addBidders store' rest
      end
  end.

(** [fresh] is the identifier [uuid.New()] draws. *)
Definition NewAuction (fresh : UUID) (na : NewAuctionConfig.t)
  : result Auction.t :=
  match validateAuctionData na with
  | Some err => Err (fmt_Errorf_w "invalid auction data: %w" [] err)
  | None =>
      match addBidders NewInMemoryStore
              (toNewBidders (NewAuctionConfig.Bidders na)) with
      | (_, Some err) => Err err
      | (store, None) => Ok {| Auction.storer := store; Auction.ID := fresh |}
      end
  end.

(** *** PlaceBid *)

Definition with_bid (b : bidder) (bidAmount : float64) (now : Time) : bidder :=
  {| ID := ID b;
     Name := Name b;
     StartingBid := StartingBid b;
     MaxBid := MaxBid b;
     CurrentBid := bidAmount;
     AutoIncrement := AutoIncrement b;
     LastBidTime := now |}.

(** [a.PlaceBid(id)], with [now] the instant [time.Now()] returns.  The
    auction's store is updated in place: the function returns the auction
    after the call together with the error. *)
Definition PlaceBid (now : Time) (a : Auction.t) (id : UUID)
  : Auction.t * option error :=
  match GetBidder (Auction.storer a) id with
  | Err err => (a, Some (fmt_Errorf_w "failed to get bidder: %w" [] err))
  | Ok bidder =>
      let bidAmount := add (CurrentBid bidder) (AutoIncrement bidder) in
      if ltb bidAmount (StartingBid bidder) then
        (a, Some (fmt_Errorf
                    "bid amount $%.2f is less than starting bid $%.2f"
                    [ArgFloat bidAmount; ArgFloat (StartingBid bidder)]))
      else if gtb bidAmount (MaxBid bidder) then
        (a, Some (fmt_Errorf_w
                    "%w: bid amount $%.2f is greater than max bid $%.2f"
                    [ArgFloat bidAmount; ArgFloat (MaxBid bidder)]
                    ErrExceededMaxBid))
      else if leb bidAmount (CurrentBid bidder) then
        (a, Some (fmt_Errorf
                    "bid amount $%.2f is less than or equal to current bid $%.2f"
                    [ArgFloat bidAmount; ArgFloat (CurrentBid bidder)]))
      else
        match UpdateBidder (Auction.storer a) (with_bid bidder bidAmount now) with
        | (store', Some err) =>
            ({| Auction.storer := store'; Auction.ID := Auction.ID a |},
             Some (fmt_Errorf_w "failed to update bidder: %w" [] err))
        | (store', None) =>
            ({| Auction.storer := store'; Auction.ID := Auction.ID a |}, None)
        end
  end.

(** *** DetermineWinner *)

Definition isWinner (currentWinner bidder : bidder) : bool :=
  String.eqb (Name currentWinner) EmptyString
  || ltb (CurrentBid bidder) (CurrentBid currentWinner)
  || (eqb (CurrentBid bidder) (CurrentBid currentWinner)
      && Before (LastBidTime bidder) (LastBidTime currentWinner)).

(** The loop of [DetermineWinner] over the slice [ListBidders] returned,
    entered with the candidate [wbdr]. *)
Definition scanFrom (wbdr : bidder) (bdrs : list bidder) : bidder :=
  fold_left (λ wbdr bidder, if isWinner wbdr bidder then bidder else wbdr)
    bdrs wbdr.

(** [var wbdr bidder]: the loop starts from the zero record. *)
Definition scanBidders (bdrs : list bidder) : bidder :=
  scanFrom zero_bidder bdrs.

(** The body of [DetermineWinner] once [ListBidders] has returned [bdrs]. *)
Definition DetermineWinnerOf (bdrs : list bidder) : result Winner.t :=
  let wbdr := scanBidders bdrs in
  if String.eqb (Name wbdr) EmptyString then Err (errors_New "no winner")
  else Ok {| Winner.ID := ID wbdr; Winner.Name := Name wbdr |}.

(** [a.DetermineWinner()] may return [r]: some iteration order of the map
    gives it. *)
Definition DetermineWinner (a : Auction.t) (r : result Winner.t) : Prop :=
  ∃ bdrs, ListBidders (Auction.storer a) bdrs ∧ DetermineWinnerOf bdrs = r.

(** ** Callers *)

(** A caller's sequence of calls [PlaceBid(id)], each with the instant its
    [time.Now()] reads; errors are dropped, as a caller that goes on does. *)
Definition PlaceBids (a : Auction.t) (calls : list (Time * UUID)) : Auction.t :=
  fold_left (λ a c, (PlaceBid c.1 a c.2).1) calls a.

(** The auctions a program can hold: built by [NewAuction] from [na], then
    passed through any number of [PlaceBid] calls. *)
Inductive reachable (na : NewAuctionConfig.t) : Auction.t → Prop :=
| reachable_new fresh a :
    NewAuction fresh na = Ok a → reachable na a
| reachable_bid a now id :
    reachable na a → reachable na (PlaceBid now a id).1.

(** The order [isWinner] compares candidates with: a lower current bid, or
    the same bid placed earlier. *)
Definition beats (b w : bidder) : bool :=
  ltb (CurrentBid b) (CurrentBid w)
  || (eqb (CurrentBid b) (CurrentBid w)
      && Before (LastBidTime b) (LastBidTime w)).

Definition named (b : bidder) : Prop := Name b ≠ EmptyString.

Definition winner_of (b : bidder) : Winner.t :=
  {| Winner.ID := ID b; Winner.Name := Name b |}.

(** ** Outcomes of PlaceBid *)

(** The amount a call bids for [b]. *)
Definition bidAmount_of (b : bidder) : float64 :=
  add (CurrentBid b) (AutoIncrement b).

(** The four ways out of [PlaceBid] before the store is written. *)
Definition err_not_found : error :=
  fmt_Errorf_w "failed to get bidder: %w" [] (errors_New "bidder not found").

Definition err_below_starting (b : bidder) : error :=
  fmt_Errorf "bid amount $%.2f is less than starting bid $%.2f"
    [ArgFloat (bidAmount_of b); ArgFloat (StartingBid b)].

Definition err_exceeded (b : bidder) : error :=
  fmt_Errorf_w "%w: bid amount $%.2f is greater than max bid $%.2f"
    [ArgFloat (bidAmount_of b); ArgFloat (MaxBid b)] ErrExceededMaxBid.

Definition err_not_increasing (b : bidder) : error :=
  fmt_Errorf "bid amount $%.2f is less than or equal to current bid $%.2f"
    [ArgFloat (bidAmount_of b); ArgFloat (CurrentBid b)].

(** The auction a successful call leaves. *)
Definition after_bid (a : Auction.t) (b : bidder) (now : Time) : Auction.t :=
  {| Auction.storer :=
       <[ID b := with_bid b (bidAmount_of b) now]> (Auction.storer a);
     Auction.ID := Auction.ID a |}.

(** ** The identifiers the validation loop has seen *)

(** [seenIDs] after the loop of [validateAuctionData] has passed over
    [bidders] without returning. *)
Definition seen_after (seenIDs : gmap N bool) (bidders : list NewBidder.t)
  : gmap N bool :=
  fold_left (λ seen nb, <[NewBidder.ID nb := true]> seen) bidders seenIDs.

(** ** Outcomes of validation and construction *)

Definition err_starting_bid (nb : NewBidder.t) : error :=
  fmt_Errorf "starting bid must be positive, got $%.2f"
    [ArgFloat (NewBidder.StartingBid nb)].

Definition err_max_bid (nb : NewBidder.t) : error :=
  fmt_Errorf
    "max bid $%.2f must be greater than or equal to starting bid $%.2f"
    [ArgFloat (NewBidder.MaxBid nb); ArgFloat (NewBidder.StartingBid nb)].

Definition err_increment (nb : NewBidder.t) : error :=
  fmt_Errorf "auto-increment must be positive, got $%.2f"
    [ArgFloat (NewBidder.AutoIncrement nb)].

Definition err_insufficient : error :=
  errors_New "auction must have at least two bidders".

Definition err_duplicate (id : UUID) : error :=
  fmt_Errorf "duplicate bidder ID detected: %s" [ArgUUID id].

Definition err_invalid_bidder (id : UUID) (reason : error) : error :=
  fmt_Errorf_w "invalid bidder data for bidder ID %s: %w" [ArgUUID id] reason.

Definition err_invalid_auction (cause : error) : error :=
  fmt_Errorf_w "invalid auction data: %w" [] cause.

Definition err_no_winner : error := errors_New "no winner".

(** ** Parallel callers *)

(** The three checks of [PlaceBid] on the record [GetBidder] returned. *)
Definition checks (b : bidder) : option error :=
  if ltb (bidAmount_of b) (StartingBid b) then Some (err_below_starting b)
  else if gtb (bidAmount_of b) (MaxBid b) then Some (err_exceeded b)
  else if leb (bidAmount_of b) (CurrentBid b) then Some (err_not_increasing b)
  else None.

(** A goroutine that calls [PlaceBid] for the identifiers of [todo], one
    after the other.  A call touches the store twice, each time under the
    store's lock: [GetBidder] (read lock) and, if the checks pass,
    [UpdateBidder] (write lock); between the two the goroutine holds its
    copy of the record, [inflight], and other goroutines may run.
    [returned] logs the calls that have returned, with the instant each
    read from the clock. *)
Record goroutine : Type := mkGoroutine {
  returned : list (Time * UUID);
  inflight : option (UUID * bidder);
  todo : list UUID
}.

(** The next access of [g] to the store, when the scheduler picks it at
    the instant [now]; [None] when [g] has no call left. *)
Definition advance (now : Time) (store : gmap N bidder) (g : goroutine)
  : option (gmap N bidder * goroutine) :=
  match inflight g with
  | Some (id, b) =>
      Some ((UpdateBidder store (with_bid b (bidAmount_of b) now)).1,
            {| returned := returned g ++ [(now, id)];
               inflight := None;
               todo := todo g |})
  | None =>
      match todo g with
      | [] => None
      | id :: rest =>
          match GetBidder store id with
          | Err _ =>
              Some (store, {| returned := returned g ++ [(now, id)];
                              inflight := None;
                              todo := rest |})
          | Ok b =>
              match checks b with
              | Some _ =>
                  Some (store, {| returned := returned g ++ [(now, id)];
                                  inflight := None;
                                  todo := rest |})
              | None =>
                  Some (store, {| returned := returned g;
                                  inflight := Some (id, b);
                                  todo := rest |})
              end
          end
      end
  end.

(** One step of the goroutine number [c.1] at the instant [c.2]. *)
Definition sched_step (c : nat * Time) (s : gmap N bidder * list goroutine)
  : option (gmap N bidder * list goroutine) :=
  match s.2 !! c.1 with
  | None => None
  | Some g =>
      match advance c.2 s.1 g with
      | None => None
      | Some (store', g') => Some (store', <[c.1 := g']> s.2)
      end
  end.

(** The store and the goroutines after the interleaving [schedule]. *)
Fixpoint run (schedule : list (nat * Time))
    (s : gmap N bidder * list goroutine)
  : option (gmap N bidder * list goroutine) :=
  match schedule with
  | [] => Some s
  | c :: rest =>
      match sched_step c s with
      | None => None
      | Some s' => run rest s'
      end
  end.

(** The identifiers a goroutine bids for, from start to end. *)
Definition calls_of (g : goroutine) : list UUID :=
  (returned g).*2
  ++ match inflight g with Some (id, _) => [id] | None => [] end
  ++ todo g.

(** A goroutine that has not started. *)
Definition spawn (ids : list UUID) : goroutine :=
  {| returned := []; inflight := None; todo := ids |}.

(** No two goroutines bid for the same bidder. *)
Definition disjoint_bidders (idss : list (list UUID)) : Prop :=
  ∀ i j ids ids' id,
    i ≠ j → idss !! i = Some ids → idss !! j = Some ids' →
    id ∈ ids → id ∉ ids'.

(** What the scheduler keeps true of the store and the goroutines, for an
    auction [a0] and goroutines started on the lists [idss]: every goroutine
    still has the calls it was given, the records of its bidders are the ones
    its returned calls, run alone on [a0], leave, and the record it holds
    between the two accesses of a call is the stored one. *)
Definition serialized (a0 : Auction.t) (idss : list (list UUID))
    (s : gmap N bidder * list goroutine) : Prop :=
  keyed s.1
  ∧ length s.2 = length idss
  ∧ ∀ i g, s.2 !! i = Some g →
      idss !! i = Some (calls_of g)
      ∧ (∀ id, id ∈ calls_of g →
           s.1 !! id = Auction.storer (PlaceBids a0 (returned g)) !! id)
      ∧ (∀ id b, inflight g = Some (id, b) →
           s.1 !! id = Some b ∧ checks b = None).

(** ** The bidding loop of the tests *)

(** One pass of [for _, bidder := range tt.bidders] in
    [TestAuctionScenarios]: every bidder bids in turn; the pass breaks at
    the first call that fails with [ErrExceededMaxBid]; [active] records
    that a call succeeded.  The k-th call reads the instant [clock + k]. *)
Fixpoint bidRound (ids : list UUID) (a : Auction.t) (clock : Time)
    (active : bool) : Auction.t * Time * bool :=
  match ids with
  | [] => (a, clock, active)
  | id :: rest =>
      match PlaceBid clock a id with
      | (a', Some err) =>
          if errors_Is_ErrExceededMaxBid err then (a', clock + 1, active)
          else bidRound rest a' (clock + 1) active
      | (a', None) => bidRound rest a' (clock + 1) true
      end
  end.

(** [for active { ... }], with [fuel] bounding the number of passes. *)
Fixpoint bidRounds (fuel : nat) (ids : list UUID) (a : Auction.t)
    (clock : Time) : option Auction.t :=
  match fuel with
  | O => None
  | S fuel =>
      let '(a', clock', active) := bidRound ids a clock false in
      if active then bidRounds fuel ids a' clock' else Some a'
  end.

(** ** Bidders adrift *)

(** The store holds under [id] a record whose next amount is NaN. *)
Definition adrift (id : UUID) (a : Auction.t) : Prop :=
  keyed (Auction.storer a)
  ∧ ∃ b, Auction.storer a !! id = Some b ∧ is_nan (bidAmount_of b) = true.

(** ** The cap *)

(** No record of the store has its current bid above its maximum. *)
Definition capped (store : gmap N bidder) : Prop :=
  ∀ id b, store !! id = Some b → gtb (CurrentBid b) (MaxBid b) = false.

(** ** Decidable equality of records *)

#[global] Instance spec_float_eq_dec : EqDecision spec_float.
Proof. solve_decision. Defined.

#[global] Instance bidder_eq_dec : EqDecision bidder.
Proof. solve_decision. Defined.

(** ** Sample auctions *)

Module Examples.

(** [createBidder] of the package's tests: the current bid starts at the
    starting bid and no bid has been placed.  The identifier, drawn by
    [uuid.New()] there, is an argument here. *)
Definition createBidder (id : UUID) (name : string)
    (startingBid maxBid increment : Z) : NewBidder.t :=
  {| NewBidder.ID := id;
     NewBidder.Name := name;
     NewBidder.StartingBid := of_Z startingBid;
     NewBidder.MaxBid := of_Z maxBid;
     NewBidder.CurrentBid := of_Z startingBid;
     NewBidder.AutoIncrement := of_Z increment;
     NewBidder.LastBidTime := 0 |}.

(** "Auction #1" of the tests. *)
Definition sasha : NewBidder.t := createBidder 1 "Sasha" 50 80 3.
Definition john : NewBidder.t := createBidder 2 "John" 60 82 2.
Definition pat : NewBidder.t := createBidder 3 "Pat" 55 85 5.

(** A fourth bidder who starts where Sasha starts. *)
Definition sasha' : NewBidder.t := createBidder 4 "Sascha" 50 90 4.

Definition auction1 : NewAuctionConfig.t :=
  {| NewAuctionConfig.Bidders := [sasha; john; pat] |}.

(** The same bidders, supplied in the opposite order. *)
Definition auction1_reversed : NewAuctionConfig.t :=
  {| NewAuctionConfig.Bidders := [pat; john; sasha] |}.

(** The auction [NewAuction] builds from a configuration that passes
    validation, when [uuid.New()] draws 9. *)
Definition started (na : NewAuctionConfig.t) : Auction.t :=
  {| Auction.storer :=
       (addBidders NewInMemoryStore
          (toNewBidders (NewAuctionConfig.Bidders na))).1;
     Auction.ID := 9 |}.

(** Ten calls for Sasha, at the instants 1 to 10: she then stands at 80,
    her maximum. *)
Definition sasha_calls : list (Z * N) :=
  (λ k, (Z.of_nat k, 1%N)) <$> seq 1 10.

Definition sasha_at_max : Auction.t := PlaceBids (started auction1) sasha_calls.

(** Her record then. *)
Definition sasha_80 : bidder := with_bid (toNewBidder sasha) (of_Z 80) 10.

(** "Auction #1" after the bidding loop of the tests. *)
Definition auction1_end : Auction.t :=
  default (started auction1)
    (bidRounds 20 [1%N; 2%N; 3%N] (started auction1) 1).

(** A configuration whose first bidder has a NaN increment
    ([math.NaN()]); it passes validation, whose comparisons are all false
    on a NaN. *)
Definition drifter : NewBidder.t :=
  {| NewBidder.ID := 1;
     NewBidder.Name := "Drifter";
     NewBidder.StartingBid := of_Z 1;
     NewBidder.MaxBid := of_Z 10;
     NewBidder.CurrentBid := of_Z 1;
     NewBidder.AutoIncrement := NaN;
     NewBidder.LastBidTime := 0 |}.

Definition drifting : NewAuctionConfig.t :=
  {| NewAuctionConfig.Bidders := [drifter; john] |}.

(** A configuration whose first bidder comes with a current bid of 100
    and a maximum of 2; validation does not look at the current bid. *)
Definition spender : NewBidder.t :=
  {| NewBidder.ID := 1;
     NewBidder.Name := "Spender";
     NewBidder.StartingBid := of_Z 1;
     NewBidder.MaxBid := of_Z 2;
     NewBidder.CurrentBid := of_Z 100;
     NewBidder.AutoIncrement := of_Z 1;
     NewBidder.LastBidTime := 0 |}.

Definition overspent : NewAuctionConfig.t :=
  {| NewAuctionConfig.Bidders := [spender; john] |}.

(** A configuration whose first bidder has a starting bid of 0 and whose
    second and third bidders share the identifier 2. *)
Definition penniless : NewBidder.t := createBidder 1 "Penniless" 0 10 1.
Definition johnny : NewBidder.t := createBidder 2 "Johnny" 61 83 2.

Definition twins : NewAuctionConfig.t :=
  {| NewAuctionConfig.Bidders := [penniless; john; johnny] |}.

(** Three bidders, the second without a name; validation does not look at
    names. *)
Definition anna : NewBidder.t :=
  {| NewBidder.ID := 3;
     NewBidder.Name := "Anna";
     NewBidder.StartingBid := of_Z 1;
     NewBidder.MaxBid := of_Z 100;
     NewBidder.CurrentBid := of_Z 10;
     NewBidder.AutoIncrement := of_Z 1;
     NewBidder.LastBidTime := 0 |}.

Definition nameless : NewBidder.t :=
  {| NewBidder.ID := 2;
     NewBidder.Name := EmptyString;
     NewBidder.StartingBid := of_Z 1;
     NewBidder.MaxBid := of_Z 100;
     NewBidder.CurrentBid := of_Z 5;
     NewBidder.AutoIncrement := of_Z 1;
     NewBidder.LastBidTime := 0 |}.

Definition carl : NewBidder.t :=
  {| NewBidder.ID := 1;
     NewBidder.Name := "Carl";
     NewBidder.StartingBid := of_Z 1;
     NewBidder.MaxBid := of_Z 100;
     NewBidder.CurrentBid := of_Z 20;
     NewBidder.AutoIncrement := of_Z 1;
     NewBidder.LastBidTime := 0 |}.

Definition masked : NewAuctionConfig.t :=
  {| NewAuctionConfig.Bidders := [anna; nameless; carl] |}.

Definition masked_pair : NewAuctionConfig.t :=
  {| NewAuctionConfig.Bidders := [anna; nameless] |}.

(** Two named bidders with the same current bid, 78, the first having bid
    earlier. *)
Definition early : bidder :=
  {| ID := 1; Name := "A"; StartingBid := of_Z 50; MaxBid := of_Z 80;
     CurrentBid := of_Z 78; AutoIncrement := of_Z 2; LastBidTime := 100 |}.

Definition late : bidder :=
  {| ID := 2; Name := "B"; StartingBid := of_Z 60; MaxBid := of_Z 80;
     CurrentBid := of_Z 78; AutoIncrement := of_Z 3; LastBidTime := 200 |}.

(** The auction that holds exactly these two. *)
Definition tie : Auction.t :=
  {| Auction.storer := <[ID early := early]> {[ID late := late]};
     Auction.ID := 9 |}.

(** A bidder whose increment is lost in rounding: 2^53 + 1 is not a
    float64, and the sum rounds back to 2^53. *)
Definition hoarder : NewBidder.t :=
  {| NewBidder.ID := 1;
     NewBidder.Name := "Hoarder";
     NewBidder.StartingBid := of_Z 1;
     NewBidder.MaxBid := of_Z (2 ^ 60);
     NewBidder.CurrentBid := of_Z (2 ^ 53);
     NewBidder.AutoIncrement := of_Z 1;
     NewBidder.LastBidTime := 0 |}.

Definition hoarding : NewAuctionConfig.t :=
  {| NewAuctionConfig.Bidders := [hoarder; john] |}.

(** Two goroutines on "Auction #1", one bidding twice for Sasha, one once
    for John, and an interleaving in which John's whole call falls between
    the two store accesses of Sasha's first call. *)
Definition race_bidders : list (list UUID) := [[1%N; 1%N]; [2%N]].

Definition race_start : gmap N bidder * list goroutine :=
  (Auction.storer (started auction1), spawn <$> race_bidders).

Definition race_schedule : list (nat * Time) :=
  [(0%nat, 1); (1%nat, 2); (1%nat, 3); (0%nat, 4); (0%nat, 5); (0%nat, 6)].

Definition race_end : gmap N bidder * list goroutine :=
  default race_start (run race_schedule race_start).

(** Two goroutines on [drifting], one call each. *)
Definition drift_bidders : list (list UUID) := [[1%N]; [2%N]].

Definition drift_start : gmap N bidder * list goroutine :=
  (Auction.storer (started drifting), spawn <$> drift_bidders).

Definition drift_schedule : list (nat * Time) :=
  [(0%nat, 1); (1%nat, 2); (1%nat, 3); (0%nat, 4)].

Definition drift_end : gmap N bidder * list goroutine :=
  default drift_start (run drift_schedule drift_start).

End Examples.

(** * Facts *)

(** ** The order of float64 *)

Section float64_order.

Lemma SFcompare_key x y :
  SFcompare x y =
  match key x, key y with
  | Some a, Some b => Some (key_cmp a b)
  | _, _ => None
  end.
Proof.
  destruct x as [[]|[]| |[] m1 e1], y as [[]|[]| |[] m2 e2]; try reflexivity;
    cbn -[Z.compare Z.opp].
  assert (((- e1) ?= (- e2)) = CompOpp (e1 ?= e2)) as ->
      by (rewrite <- (Z.compare_opp e2 e1); apply Z.compare_antisym).
  change (-1 ?= -1) with Eq.
  destruct (e1 ?= e2); reflexivity.
Qed.

Lemma key_cmp_Lt a b : key_cmp a b = Lt ↔ key_lt a b.
Proof.
  destruct a as [[a1 a2] a3], b as [[b1 b2] b3]. unfold key_cmp, key_lt.
  destruct (Z.compare_spec a1 b1), (Z.compare_spec a2 b2),
    (Z.compare_spec a3 b3); split; intros; try discriminate; try lia; reflexivity.
Qed.

Lemma key_cmp_Eq a b : key_cmp a b = Eq ↔ a = b.
Proof.
  destruct a as [[a1 a2] a3], b as [[b1 b2] b3]. unfold key_cmp.
  destruct (Z.compare_spec a1 b1), (Z.compare_spec a2 b2),
    (Z.compare_spec a3 b3); split; intros H'; try discriminate;
    try (injection H'; lia); subst; reflexivity.
Qed.

Lemma key_cmp_Gt a b : key_cmp a b = Gt ↔ key_lt b a.
Proof.
  destruct a as [[a1 a2] a3], b as [[b1 b2] b3]. unfold key_cmp, key_lt.
  destruct (Z.compare_spec a1 b1), (Z.compare_spec a2 b2),
    (Z.compare_spec a3 b3); split; intros; try discriminate; try lia; reflexivity.
Qed.

Lemma key_is_nan x : key x = None ↔ is_nan x = true.
Proof. destruct x as [[]|[]| |[] m e]; simpl; split; congruence. Qed.

Lemma ltb_key x y :
  ltb x y = true ↔ ∃ a b, key x = Some a ∧ key y = Some b ∧ key_lt a b.
Proof.
  unfold ltb, SFltb. rewrite SFcompare_key.
  destruct (key x) as [a|], (key y) as [b|];
    try (split; [discriminate | intros (?&?&?&?&?); discriminate]).
  split.
  - destruct (key_cmp a b) eqn:E; try discriminate.
    intros _. exists a, b. by rewrite <- key_cmp_Lt.
  - intros (a'&b'&?&?&H). simplify_eq. apply key_cmp_Lt in H. by rewrite H.
Qed.

Lemma eqb_key x y :
  eqb x y = true ↔ ∃ a, key x = Some a ∧ key y = Some a.
Proof.
  unfold eqb, SFeqb. rewrite SFcompare_key.
  destruct (key x) as [a|], (key y) as [b|];
    try (split; [discriminate | intros (?&?&?); discriminate]).
  split.
  - destruct (key_cmp a b) eqn:E; try discriminate.
    apply key_cmp_Eq in E as ->. eauto.
  - intros (a'&?&?). simplify_eq.
    by rewrite (proj2 (key_cmp_Eq _ _) eq_refl).
Qed.

Lemma leb_key x y :
  leb x y = true ↔
  ∃ a b, key x = Some a ∧ key y = Some b ∧ (key_lt a b ∨ a = b).
Proof.
  unfold leb, SFleb. rewrite SFcompare_key.
  destruct (key x) as [a|], (key y) as [b|];
    try (split; [discriminate | intros (?&?&?&?&?); discriminate]).
  split.
  - destruct (key_cmp a b) eqn:E; try discriminate; intros _; exists a, b.
    + apply key_cmp_Eq in E. auto.
    + apply key_cmp_Lt in E. auto.
  - intros (a'&b'&?&?&[H|H]); simplify_eq.
    + apply key_cmp_Lt in H. by rewrite H.
    + by rewrite (proj2 (key_cmp_Eq _ _) eq_refl).
Qed.

Lemma key_lt_trans a b c : key_lt a b → key_lt b c → key_lt a c.
Proof.
  destruct a as [[a1 a2] a3], b as [[b1 b2] b3], c as [[c1 c2] c3].
  unfold key_lt. lia.
Qed.

Lemma key_lt_irrefl a : ¬ key_lt a a.
Proof. destruct a as [[a1 a2] a3]. unfold key_lt. lia. Qed.

Lemma key_total a b : key_lt a b ∨ a = b ∨ key_lt b a.
Proof.
  destruct a as [[a1 a2] a3], b as [[b1 b2] b3]. unfold key_lt.
  destruct (Z.lt_trichotomy a1 b1) as [|[]], (Z.lt_trichotomy a2 b2) as [|[]],
    (Z.lt_trichotomy a3 b3) as [|[]]; subst; auto; lia.
Qed.

Lemma ltb_trans x y z : ltb x y = true → ltb y z = true → ltb x z = true.
Proof.
  rewrite !ltb_key. intros (a&b&Ha&Hb&Hab) (b'&c&Hb'&Hc&Hbc).
  simplify_eq. exists a, c. eauto using key_lt_trans.
Qed.

Lemma ltb_eqb_trans x y z : ltb x y = true → eqb y z = true → ltb x z = true.
Proof.
  rewrite !ltb_key, eqb_key. intros (a&b&Ha&Hb&Hab) (b'&Hb'&Hc).
  simplify_eq. exists a, b. eauto.
Qed.

Lemma eqb_ltb_trans x y z : eqb x y = true → ltb y z = true → ltb x z = true.
Proof.
  rewrite !ltb_key, eqb_key. intros (a&Ha&Hb) (b'&c&Hb'&Hc&Hbc).
  simplify_eq. exists a, c. eauto.
Qed.

Lemma eqb_trans x y z : eqb x y = true → eqb y z = true → eqb x z = true.
Proof.
  rewrite !eqb_key. intros (a&Ha&Hb) (b'&Hb'&Hc). simplify_eq. eauto.
Qed.

Lemma ltb_irrefl x : ltb x x = false.
Proof.
  apply not_true_is_false. rewrite ltb_key. intros (a&b&Ha&Hb&Hab).
  simplify_eq. by apply key_lt_irrefl in Hab.
Qed.

Lemma ltb_eqb_excl x y : ltb x y = true → eqb x y = false.
Proof.
  intros H. apply not_true_is_false. revert H. rewrite ltb_key, eqb_key.
  intros (a&b&Ha&Hb&Hab) (a'&Ha'&Hb'). simplify_eq.
  by apply key_lt_irrefl in Hab.
Qed.

Lemma eqb_sym x y : eqb x y = eqb y x.
Proof.
  apply eq_true_iff_eq. rewrite !eqb_key.
  split; intros (a & ? & ?); eauto.
Qed.

Lemma eqb_not_ltb x y : eqb x y = true → ltb y x = false.
Proof.
  intros He. apply not_true_is_false. intros Hl%ltb_eqb_excl.
  rewrite eqb_sym in Hl. congruence.
Qed.

Lemma leb_false_gtb x y :
  is_nan x = false → is_nan y = false → leb x y = false → gtb x y = true.
Proof.
  intros Hx Hy H. unfold gtb. fold (ltb y x). apply ltb_key.
  destruct (key x) as [a|] eqn:Ha; [|apply key_is_nan in Ha; congruence].
  destruct (key y) as [b|] eqn:Hb; [|apply key_is_nan in Hb; congruence].
  exists b, a. split_and!; try done.
  destruct (key_total a b) as [?|[?|?]]; try done;
    (assert (leb x y = true) by (apply leb_key; exists a, b; auto);
     congruence).
Qed.

Lemma gtb_false_leb x y :
  is_nan x = false → is_nan y = false → gtb x y = false → leb x y = true.
Proof.
  intros Hx Hy H. apply leb_key.
  destruct (key x) as [a|] eqn:Ha; [|apply key_is_nan in Ha; congruence].
  destruct (key y) as [b|] eqn:Hb; [|apply key_is_nan in Hb; congruence].
  exists a, b. split_and!; try done.
  destruct (key_total a b) as [?|[?|?]]; auto.
  assert (ltb y x = true) by (apply ltb_key; exists b, a; auto).
  unfold gtb, ltb in *.
  congruence.
Qed.

Lemma gtb_max_not_below x hi lo :
  gtb x hi = true → ltb hi lo = false → ltb x lo = false.
Proof.
  unfold gtb. fold (ltb hi x). intros H1 H2. apply not_true_is_false.
  intros H3. rewrite <- not_true_iff_false in H2. apply H2.
  eauto using ltb_trans.
Qed.

Lemma add_nan x y :
  is_nan (add x y) = false → is_nan x = false ∧ is_nan y = false.
Proof. destruct x, y; simpl; try discriminate; auto. Qed.

End float64_order.

(** ** Errors *)

Lemma errors_Is_Unwrap (e : error) :
  errors_Is_ErrExceededMaxBid e = true ↔
  e = ErrExceededMaxBid
  ∨ ∃ w, Unwrap e = Some w ∧ errors_Is_ErrExceededMaxBid w = true.
Proof.
  destruct e as [| | |format args w]; simpl; split; try done; eauto.
  - intros [?|(w & ? & _)]; done.
  - intros [?|(w & ? & _)]; done.
  - intros [?|(w' & [= <-] & ?)]; done.
Qed.

(** The numbers of the sample auctions are float64 values. *)
Lemma Examples_valid :
  forallb
    (λ nb, valid (NewBidder.StartingBid nb) && valid (NewBidder.MaxBid nb)
           && valid (NewBidder.CurrentBid nb)
           && valid (NewBidder.AutoIncrement nb))
    [Examples.sasha; Examples.john; Examples.pat; Examples.drifter;
     Examples.spender; Examples.penniless; Examples.johnny; Examples.anna;
     Examples.nameless; Examples.carl; Examples.hoarder]
  = true.
Proof. by vm_compute. Qed.

(** ** The store *)

Section store.

Implicit Types (store : gmap N bidder) (b : bidder) (id : N).

Lemma keyed_empty : keyed NewInMemoryStore.
Proof. intros id b. unfold NewInMemoryStore. by rewrite lookup_empty. Qed.

Lemma keyed_insert store b : keyed store → keyed (<[ID b := b]> store).
Proof.
  intros Hk id b'. rewrite lookup_insert. case_decide.
  - intros [= <-]. done.
  - apply Hk.
Qed.

Lemma AddBidder_keyed store b : keyed store → keyed (AddBidder store b).1.
Proof.
  intros Hk. unfold AddBidder. destruct (store !! ID b); simpl; [done|].
  by apply keyed_insert.
Qed.

Lemma UpdateBidder_keyed store b : keyed store → keyed (UpdateBidder store b).1.
Proof. intros Hk. by apply keyed_insert. Qed.

Lemma GetBidder_Ok store id b : GetBidder store id = Ok b ↔ store !! id = Some b.
Proof.
  unfold GetBidder. destruct (store !! id); split; intros; by simplify_eq.
Qed.

Lemma GetBidder_Err store id e :
  GetBidder store id = Err e ↔
  store !! id = None ∧ e = errors_New "bidder not found".
Proof.
  unfold GetBidder. destruct (store !! id); split;
    intros; destruct_and?; by simplify_eq.
Qed.

End store.

(** ** PlaceBid *)

Section place_bid.

Implicit Types (a : Auction.t) (b : bidder) (id : N) (now : Z).

Lemma PlaceBid_unfold now a id :
  PlaceBid now a id =
  match Auction.storer a !! id with
  | None => (a, Some err_not_found)
  | Some b =>
      if ltb (bidAmount_of b) (StartingBid b) then
        (a, Some (err_below_starting b))
      else if gtb (bidAmount_of b) (MaxBid b) then (a, Some (err_exceeded b))
      else if leb (bidAmount_of b) (CurrentBid b) then
        (a, Some (err_not_increasing b))
      else (after_bid a b now, None)
  end.
Proof.
  unfold PlaceBid, GetBidder, UpdateBidder, bidAmount_of.
  destruct (Auction.storer a !! id) as [b|]; [|done].
  repeat case_match; done.
Qed.

Lemma PlaceBid_success now a id a' :
  PlaceBid now a id = (a', None) ↔
  ∃ b, Auction.storer a !! id = Some b
       ∧ ltb (bidAmount_of b) (StartingBid b) = false
       ∧ gtb (bidAmount_of b) (MaxBid b) = false
       ∧ leb (bidAmount_of b) (CurrentBid b) = false
       ∧ a' = after_bid a b now.
Proof.
  rewrite PlaceBid_unfold. split.
  - destruct (Auction.storer a !! id) as [b|]; [|done].
    repeat case_match; intros; simplify_eq. by exists b.
  - intros (b & -> & -> & -> & -> & ->). done.
Qed.

Lemma PlaceBid_failure now a id a' e :
  PlaceBid now a id = (a', Some e) → a' = a.
Proof.
  rewrite PlaceBid_unfold.
  destruct (Auction.storer a !! id) as [b|]; repeat case_match;
    intros; by simplify_eq.
Qed.

Lemma PlaceBid_keyed now a id :
  keyed (Auction.storer a) → keyed (Auction.storer (PlaceBid now a id).1).
Proof.
  intros Hk. rewrite PlaceBid_unfold.
  destruct (Auction.storer a !! id) as [b|]; repeat case_match; simpl; try done.
  change (ID b) with (ID (with_bid b (bidAmount_of b) now)).
  by apply keyed_insert.
Qed.

(** A call for [id] leaves the records of the other bidders alone. *)
Lemma PlaceBid_other now a id id' :
  keyed (Auction.storer a) → id ≠ id' →
  Auction.storer (PlaceBid now a id).1 !! id' = Auction.storer a !! id'.
Proof.
  intros Hk Hne. rewrite PlaceBid_unfold.
  destruct (Auction.storer a !! id) as [b|] eqn:Hb; repeat case_match;
    simpl; try done.
  apply Hk in Hb. rewrite lookup_insert_ne; congruence.
Qed.

Lemma PlaceBids_keyed calls a :
  keyed (Auction.storer a) → keyed (Auction.storer (PlaceBids a calls)).
Proof.
  revert a. induction calls as [|[now id] calls IH]; intros a Hk; [done|].
  simpl. apply IH. by apply PlaceBid_keyed.
Qed.

End place_bid.

(** ** Validation *)

Section validation.

Implicit Types (seenIDs : gmap N bool) (nb : NewBidder.t)
  (bidders : list NewBidder.t).

Lemma validateBidder_None nb :
  validateBidder nb = None ↔
  leb (NewBidder.StartingBid nb) zero = false
  ∧ ltb (NewBidder.MaxBid nb) (NewBidder.StartingBid nb) = false
  ∧ leb (NewBidder.AutoIncrement nb) zero = false.
Proof.
  unfold validateBidder. repeat case_match; split; intros;
    destruct_and?; by simplify_eq.
Qed.

Lemma seen_after_lookup bidders seenIDs id :
  is_Some (seen_after seenIDs bidders !! id) ↔
  is_Some (seenIDs !! id) ∨ id ∈ NewBidder.ID <$> bidders.
Proof.
  revert seenIDs. induction bidders as [|nb bidders IH]; intros seenIDs; simpl.
  - rewrite elem_of_nil. tauto.
  - rewrite IH, lookup_insert, elem_of_cons. case_decide; subst.
    + split; [auto|]. intros _. left. by eexists.
    + split; intros [?|?]; auto. destruct_or?; [congruence | auto].
Qed.

(** The loop passes over a prefix of valid bidders with fresh identifiers. *)
Lemma validateBidders_app pre rest seenIDs :
  Forall (λ nb, validateBidder nb = None) pre →
  NoDup (NewBidder.ID <$> pre) →
  (∀ nb, nb ∈ pre → seenIDs !! NewBidder.ID nb = None) →
  validateBidders seenIDs (pre ++ rest) =
  validateBidders (seen_after seenIDs pre) rest.
Proof.
  revert seenIDs. induction pre as [|nb pre IH]; intros seenIDs Hv Hnd Hs; [done|].
  apply Forall_cons in Hv as [Hnb Hv]. rewrite fmap_cons in Hnd.
  apply NoDup_cons in Hnd as [Hnotin Hnd]. simpl.
  rewrite (Hs nb) by left. rewrite Hnb. apply IH; [done..|].
  intros nb' Hin. rewrite lookup_insert_ne.
  - apply Hs. by right.
  - intros Heq. apply Hnotin. rewrite Heq. by apply list_elem_of_fmap_2.
Qed.

Lemma validateBidders_None bidders seenIDs :
  validateBidders seenIDs bidders = None ↔
  Forall (λ nb, validateBidder nb = None) bidders
  ∧ NoDup (NewBidder.ID <$> bidders)
  ∧ (∀ nb, nb ∈ bidders → seenIDs !! NewBidder.ID nb = None).
Proof.
  revert seenIDs. induction bidders as [|nb bidders IH]; intros seenIDs; simpl.
  - split; [|done]. intros _. split_and!; [constructor|constructor|].
    intros nb Hin. by apply elem_of_nil in Hin.
  - destruct (seenIDs !! NewBidder.ID nb) eqn:Hseen.
    { split; [done|]. intros (_ & _ & Hs). rewrite Hs in Hseen by left. done. }
    destruct (validateBidder nb) eqn:Hnb.
    { split; [done|]. intros (Hv & _). apply Forall_cons in Hv as [? _].
      congruence. }
    rewrite IH, NoDup_cons, Forall_cons. split.
    + intros (Hv & Hnd & Hs). split_and!; try done.
      * intros Hin. apply list_elem_of_fmap in Hin as (nb' & Heq & Hin).
        specialize (Hs nb' Hin). rewrite <- Heq, lookup_insert_eq in Hs. done.
      * intros nb' [->|Hin]%elem_of_cons; [done|].
        specialize (Hs nb' Hin). apply lookup_insert_None in Hs. tauto.
    + intros ((_ & Hv) & (Hnotin & Hnd) & Hs). split_and!; try done.
      intros nb' Hin. apply lookup_insert_None. split.
      * apply Hs. by right.
      * intros Heq. apply Hnotin. rewrite Heq. by apply list_elem_of_fmap_2.
Qed.

End validation.

Section validate_auction_data.

Implicit Types (na : NewAuctionConfig.t) (nb : NewBidder.t).

Lemma validateBidders_shape bidders seenIDs e :
  validateBidders seenIDs bidders = Some e →
  (∃ id, e = err_duplicate id) ∨ (∃ id reason, e = err_invalid_bidder id reason).
Proof.
  revert seenIDs. induction bidders as [|nb bidders IH]; intros seenIDs; [done|].
  simpl. repeat case_match; intros; simplify_eq; eauto.
Qed.

Lemma validateAuctionData_long na :
  (2 ≤ length (NewAuctionConfig.Bidders na))%nat →
  validateAuctionData na = validateBidders ∅ (NewAuctionConfig.Bidders na).
Proof.
  intros Hlen. unfold validateAuctionData.
  destruct (Nat.leb_spec (length (NewAuctionConfig.Bidders na)) 1); [lia|done].
Qed.

Lemma validateAuctionData_short na :
  (length (NewAuctionConfig.Bidders na) < 2)%nat →
  validateAuctionData na = Some err_insufficient.
Proof.
  intros Hlen. unfold validateAuctionData.
  destruct (Nat.leb_spec (length (NewAuctionConfig.Bidders na)) 1); [done|lia].
Qed.

Lemma validateAuctionData_None na :
  validateAuctionData na = None ↔
  (2 ≤ length (NewAuctionConfig.Bidders na))%nat
  ∧ NoDup (NewBidder.ID <$> NewAuctionConfig.Bidders na)
  ∧ Forall (λ nb, validateBidder nb = None) (NewAuctionConfig.Bidders na).
Proof.
  destruct (Nat.lt_ge_cases (length (NewAuctionConfig.Bidders na)) 2) as [Hlt|Hge].
  - rewrite validateAuctionData_short by done. split; [done|lia].
  - rewrite validateAuctionData_long, validateBidders_None by done.
    split; intros; destruct_and?; split_and?; try done.
Qed.

End validate_auction_data.

(** ** NewAuction *)

Section new_auction.

Implicit Types (store : gmap N bidder) (b : bidder) (na : NewAuctionConfig.t).

Lemma addBidders_fresh bdrs store :
  NoDup (ID <$> bdrs) →
  (∀ b, b ∈ bdrs → store !! ID b = None) →
  ∃ store', addBidders store bdrs = (store', None)
    ∧ ∀ id b, store' !! id = Some b ↔
              store !! id = Some b ∨ (b ∈ bdrs ∧ ID b = id).
Proof.
  revert store. induction bdrs as [|bdr bdrs IH]; intros store Hnd Hfresh.
  - exists store. split; [done|]. intros id b. rewrite elem_of_nil. tauto.
  - rewrite fmap_cons in Hnd. apply NoDup_cons in Hnd as [Hnotin Hnd].
    simpl. unfold AddBidder. rewrite (Hfresh bdr) by left.
    destruct (IH (<[ID bdr := bdr]> store) Hnd) as (store' & Hadd & Hlook).
    { intros b Hin. rewrite lookup_insert_ne; [apply Hfresh; by right|].
      intros Heq. apply Hnotin. rewrite Heq. by apply list_elem_of_fmap_2. }
    exists store'. split; [done|]. intros id b.
    rewrite Hlook, lookup_insert, elem_of_cons. case_decide as Hid.
    + subst id. rewrite (Hfresh bdr) by left. split.
      * intros [[= ->]|[Hin Heq]]; [by eauto|]. right. eauto.
      * intros [?|[[->|Hin] Heq]]; [done|by left|]. right. eauto.
    + split.
      * intros [?|[Hin Heq]]; [by left|]. right. eauto.
      * intros [?|[[->|Hin] Heq]]; [by left|done|]. right. eauto.
Qed.

Lemma toNewBidders_ids (nbs : list NewBidder.t) :
  ID <$> toNewBidders nbs = NewBidder.ID <$> nbs.
Proof. unfold toNewBidders. by rewrite <- list_fmap_compose. Qed.

Lemma NewAuction_invalid fresh na e :
  validateAuctionData na = Some e →
  NewAuction fresh na = Err (err_invalid_auction e).
Proof. intros H. unfold NewAuction. by rewrite H. Qed.

Lemma NewAuction_valid fresh na :
  validateAuctionData na = None →
  ∃ a, NewAuction fresh na = Ok a
    ∧ Auction.ID a = fresh
    ∧ ∀ id b, Auction.storer a !! id = Some b ↔
        ∃ nb, nb ∈ NewAuctionConfig.Bidders na
              ∧ NewBidder.ID nb = id ∧ b = toNewBidder nb.
Proof.
  intros Hv. unfold NewAuction. rewrite Hv.
  apply validateAuctionData_None in Hv as (_ & Hnd & _).
  destruct (addBidders_fresh (toNewBidders (NewAuctionConfig.Bidders na))
              NewInMemoryStore) as (store & -> & Hlook).
  { by rewrite toNewBidders_ids. }
  { intros b _. apply lookup_empty. }
  eexists. split_and!; [done..|]. intros id b. simpl. rewrite Hlook.
  unfold NewInMemoryStore. rewrite lookup_empty. unfold toNewBidders. split.
  - intros [?|[Hin Heq]]; [done|].
    apply list_elem_of_fmap in Hin as (nb & -> & Hin). eauto.
  - intros (nb & Hin & <- & ->). right. split; [|done].
    by apply list_elem_of_fmap_2.
Qed.

Lemma NewAuction_Ok_valid fresh na a :
  NewAuction fresh na = Ok a → validateAuctionData na = None.
Proof.
  unfold NewAuction. destruct (validateAuctionData na); [done|done].
Qed.

Lemma addBidders_size bdrs store :
  NoDup (ID <$> bdrs) →
  (∀ b, b ∈ bdrs → store !! ID b = None) →
  size (addBidders store bdrs).1 = (size store + length bdrs)%nat.
Proof.
  revert store. induction bdrs as [|bdr bdrs IH]; intros store Hnd Hfresh.
  - simpl. lia.
  - rewrite fmap_cons in Hnd. apply NoDup_cons in Hnd as [Hnotin Hnd].
    simpl. unfold AddBidder. rewrite (Hfresh bdr) by left.
    rewrite IH; [|done|].
    + rewrite map_size_insert_None by (apply Hfresh; left). lia.
    + intros b Hin. rewrite lookup_insert_ne; [apply Hfresh; by right|].
      intros Heq. apply Hnotin. rewrite Heq. by apply list_elem_of_fmap_2.
Qed.

Lemma NewAuction_size fresh na a :
  NewAuction fresh na = Ok a →
  size (Auction.storer a) = length (NewAuctionConfig.Bidders na).
Proof.
  intros Hnew. pose proof (NewAuction_Ok_valid _ _ _ Hnew) as Hv.
  apply validateAuctionData_None in Hv as (_ & Hnd & _).
  pose proof (addBidders_size (toNewBidders (NewAuctionConfig.Bidders na))
                NewInMemoryStore) as Hsize.
  rewrite toNewBidders_ids in Hsize. specialize (Hsize Hnd).
  unfold NewAuction in Hnew.
  destruct (validateAuctionData na); [done|].
  destruct (addBidders _ _) as [store [e|]]; [done|].
  injection Hnew as <-. simpl in *. rewrite Hsize.
  - unfold NewInMemoryStore, toNewBidders.
    rewrite map_size_empty, length_fmap. lia.
  - intros b _. apply lookup_empty.
Qed.

Lemma NewAuction_keyed fresh na a :
  NewAuction fresh na = Ok a → keyed (Auction.storer a).
Proof.
  intros Hnew. pose proof (NewAuction_Ok_valid _ _ _ Hnew) as Hv.
  destruct (NewAuction_valid fresh na Hv) as (a' & Hnew' & _ & Hlook).
  assert (a' = a) as -> by congruence.
  intros id b Hb. apply Hlook in Hb as (nb & _ & <- & ->). done.
Qed.

Lemma reachable_keyed na a : reachable na a → keyed (Auction.storer a).
Proof.
  induction 1 as [fresh a Hnew|a now id _ IH].
  - by eapply NewAuction_keyed.
  - by apply PlaceBid_keyed.
Qed.

Lemma PlaceBids_reachable na a calls :
  reachable na a → reachable na (PlaceBids a calls).
Proof.
  revert a. induction calls as [|[now id] calls IH]; intros a Hr; [done|].
  simpl. apply IH. by constructor.
Qed.

(** The bidders of a reachable auction are those of the configuration,
    with the validated fields as supplied. *)
Lemma reachable_fields (na : NewAuctionConfig.t) (a : Auction.t) :
  reachable na a →
  (∀ id b, Auction.storer a !! id = Some b →
     ∃ nb, nb ∈ NewAuctionConfig.Bidders na
           ∧ validateBidder nb = None
           ∧ id = NewBidder.ID nb
           ∧ ID b = NewBidder.ID nb
           ∧ Name b = NewBidder.Name nb
           ∧ StartingBid b = NewBidder.StartingBid nb
           ∧ MaxBid b = NewBidder.MaxBid nb
           ∧ AutoIncrement b = NewBidder.AutoIncrement nb)
  ∧ (∀ nb, nb ∈ NewAuctionConfig.Bidders na →
       is_Some (Auction.storer a !! NewBidder.ID nb))
  ∧ size (Auction.storer a) = length (NewAuctionConfig.Bidders na).
Proof.
  induction 1 as [fresh a Hnew|a now id Hr (IH1 & IH2 & IH3)].
  - pose proof (NewAuction_Ok_valid _ _ _ Hnew) as Hv.
    destruct (NewAuction_valid fresh na Hv) as (a' & Hnew' & _ & Hlook).
    assert (a' = a) as -> by congruence.
    apply validateAuctionData_None in Hv as (_ & _ & Hall).
    rewrite Forall_forall in Hall. split_and!.
    + intros id b (nb & Hin & <- & ->)%Hlook. exists nb.
      split_and!; try done. by apply Hall.
    + intros nb Hin. exists (toNewBidder nb). apply Hlook. eauto.
    + by apply (NewAuction_size fresh).
  - pose proof (reachable_keyed _ _ Hr) as Hk.
    destruct (PlaceBid now a id) as [a' [e|]] eqn:Hcall; simpl.
    { by apply PlaceBid_failure in Hcall as ->. }
    apply PlaceBid_success in Hcall as (b & Hb & _ & _ & _ & ->).
    pose proof (Hk _ _ Hb) as Hid. simpl. rewrite Hid. split_and!.
    + intros id' b'. rewrite lookup_insert. case_decide as Hcase.
      * intros [= <-]. subst id'. destruct (IH1 _ _ Hb) as (nb & Hnb).
        exists nb. simpl. exact Hnb.
      * apply IH1.
    + intros nb Hin. rewrite lookup_insert. case_decide; [by eexists|].
      by apply IH2.
    + rewrite map_size_insert_Some by by eexists. done.
Qed.

End new_auction.

(** ** DetermineWinner *)

Section determine_winner.

Implicit Types (b w : bidder) (bdrs : list bidder).

Lemma beats_trans b1 b2 b3 :
  beats b1 b2 = true → beats b2 b3 = true → beats b1 b3 = true.
Proof.
  unfold beats, Before. rewrite !orb_true_iff, !andb_true_iff, !Z.ltb_lt.
  intros [H12|[E12 T12]] [H23|[E23 T23]].
  - left. eauto using ltb_trans.
  - left. eauto using ltb_eqb_trans.
  - left. eauto using eqb_ltb_trans.
  - right. split; [eauto using eqb_trans | lia].
Qed.

Lemma beats_irrefl b : beats b b = false.
Proof.
  unfold beats, Before. rewrite ltb_irrefl, Z.ltb_irrefl.
  by rewrite andb_false_r.
Qed.

Lemma beats_asym b1 b2 : beats b1 b2 = true → beats b2 b1 = false.
Proof.
  intros H12. apply not_true_is_false. intros H21.
  pose proof (beats_trans _ _ _ H12 H21) as H. by rewrite beats_irrefl in H.
Qed.

Lemma isWinner_beats w b :
  isWinner w b = String.eqb (Name w) EmptyString || beats b w.
Proof. unfold isWinner, beats. by rewrite orb_assoc. Qed.

Lemma named_eqb b : named b ↔ String.eqb (Name b) EmptyString = false.
Proof.
  unfold named. destruct (String.eqb_spec (Name b) EmptyString); split;
    intros; congruence.
Qed.

Lemma isWinner_named w b : named w → isWinner w b = beats b w.
Proof. intros Hw%named_eqb. by rewrite isWinner_beats, Hw. Qed.

Lemma isWinner_unnamed w b : ¬ named w → isWinner w b = true.
Proof.
  intros Hw. rewrite isWinner_beats.
  destruct (String.eqb (Name w) EmptyString) eqn:E; [done|].
  by apply named_eqb in E.
Qed.

Lemma scanFrom_cons w b bdrs :
  scanFrom w (b :: bdrs) = scanFrom (if isWinner w b then b else w) bdrs.
Proof. done. Qed.

Lemma scanFrom_snoc w b bdrs :
  scanFrom w (bdrs ++ [b]) =
  if isWinner (scanFrom w bdrs) b then b else scanFrom w bdrs.
Proof. unfold scanFrom. by rewrite fold_left_app. Qed.

(** The candidate a scan ends with is the one it started with or a bidder
    of the slice. *)
Lemma scanFrom_elem w bdrs : scanFrom w bdrs = w ∨ scanFrom w bdrs ∈ bdrs.
Proof.
  revert w. induction bdrs as [|b bdrs IH]; intros w; [by left|].
  rewrite scanFrom_cons.
  destruct (IH (if isWinner w b then b else w)) as [->|Hin].
  - destruct (isWinner w b); [right; by left | by left].
  - right. by right.
Qed.

(** Over named bidders the scan is a minimum search for [beats]. *)
Lemma scanFrom_min w bdrs :
  named w → Forall named bdrs →
  named (scanFrom w bdrs)
  ∧ (scanFrom w bdrs = w ∨ beats (scanFrom w bdrs) w = true)
  ∧ ∀ b, b ∈ bdrs → beats b (scanFrom w bdrs) = false.
Proof.
  revert w. induction bdrs as [|b bdrs IH]; intros w Hw Hall.
  { split_and!; [done|by left|]. intros b Hin. by apply elem_of_nil in Hin. }
  apply Forall_cons in Hall as [Hb Hall]. rewrite scanFrom_cons.
  rewrite (isWinner_named w b Hw). destruct (beats b w) eqn:Hbw.
  - destruct (IH b Hb Hall) as (Hn & Hrb & Hmin). split_and!; [done| |].
    + right. destruct Hrb as [->|Hrb]; [done|]. eauto using beats_trans.
    + intros x [->|Hin]%elem_of_cons; [|by apply Hmin].
      destruct Hrb as [->|Hrb]; [apply beats_irrefl | by apply beats_asym].
  - destruct (IH w Hw Hall) as (Hn & Hrw & Hmin). split_and!; [done..|].
    intros x [->|Hin]%elem_of_cons; [|by apply Hmin].
    destruct Hrw as [->|Hrw]; [done|].
    apply not_true_is_false. intros Hxr.
    pose proof (beats_trans _ _ _ Hxr Hrw). congruence.
Qed.

Lemma scanBidders_cons b bdrs : scanBidders (b :: bdrs) = scanFrom b bdrs.
Proof. done. Qed.

Lemma scanBidders_elem bdrs : bdrs ≠ [] → scanBidders bdrs ∈ bdrs.
Proof.
  destruct bdrs as [|b bdrs]; [done|]. intros _. rewrite scanBidders_cons.
  destruct (scanFrom_elem b bdrs) as [->|Hin]; [by left | by right].
Qed.

Lemma DetermineWinnerOf_Ok bdrs (winner : Winner.t) :
  DetermineWinnerOf bdrs = Ok winner ↔
  named (scanBidders bdrs) ∧ winner = winner_of (scanBidders bdrs).
Proof.
  unfold DetermineWinnerOf. rewrite named_eqb.
  destruct (String.eqb (Name (scanBidders bdrs)) EmptyString); split;
    intros; destruct_and?; by simplify_eq.
Qed.

Lemma DetermineWinnerOf_Err bdrs e :
  DetermineWinnerOf bdrs = Err e ↔
  ¬ named (scanBidders bdrs) ∧ e = err_no_winner.
Proof.
  unfold DetermineWinnerOf. rewrite named_eqb.
  destruct (String.eqb (Name (scanBidders bdrs)) EmptyString); split;
    intros; destruct_and?; by simplify_eq.
Qed.

End determine_winner.

(** * The claims *)

(** ** The store's update *)

(** C8. [UpdateBidder] overwrites without looking: it never returns an
    error, afterwards the store maps the record's identifier to exactly the
    record passed, whether or not the identifier was there before, and every
    other identifier is mapped as before. *)
Theorem UpdateBidder_upsert (store : gmap N bidder) (b : bidder) :
  (UpdateBidder store b).2 = None
  ∧ (UpdateBidder store b).1 !! ID b = Some b
  ∧ (∀ id, id ≠ ID b → (UpdateBidder store b).1 !! id = store !! id)
  ∧ dom (UpdateBidder store b).1 = {[ID b]} ∪ dom store.
Proof.
  unfold UpdateBidder. simpl. split_and!.
  - done.
  - apply lookup_insert_eq.
  - intros id Hne. by apply lookup_insert_ne.
  - apply dom_insert_L.
Qed.

(** ** Failing bids *)

(** C10. A call of [PlaceBid] that returns an error, whichever it is, leaves
    the auction as it was: the store holds the same records, field by
    field. *)
Theorem PlaceBid_failure_atomic (now : Z) (a a' : Auction.t) (id : N)
    (e : error) :
  PlaceBid now a id = (a', Some e) →
  a' = a ∧ ∀ id', Auction.storer a' !! id' = Auction.storer a !! id'.
Proof.
  intros H. apply PlaceBid_failure in H as ->. done.
Qed.

Lemma PlaceBid_failure_atomic_witness :
  (PlaceBid 11 Examples.sasha_at_max 1).1 = Examples.sasha_at_max
  ∧ ∀ id', Auction.storer (PlaceBid 11 Examples.sasha_at_max 1).1 !! id'
           = Auction.storer Examples.sasha_at_max !! id'.
Proof.
  apply (PlaceBid_failure_atomic 11 Examples.sasha_at_max _ 1
           (err_exceeded Examples.sasha_80)).
  vm_compute. reflexivity.
Defined.

(** ** The checks of PlaceBid *)

(** C3. [PlaceBid] fails with the wrapped "bidder not found" when the store
    has no record under the identifier.  Otherwise the amount is the current
    bid plus the increment and the checks come in this order: below the
    starting bid, above the maximum (the error that wraps the sentinel),
    not above the current bid; when none fires the bid is stored.  Of the
    errors [PlaceBid] returns, [errors.Is(err, ErrExceededMaxBid)] holds for
    the second one of them and for no other. *)
Theorem PlaceBid_checks (now : Z) (a : Auction.t) (id : N) :
  (Auction.storer a !! id = None →
   PlaceBid now a id = (a, Some err_not_found))
  ∧ (∀ b, Auction.storer a !! id = Some b →
       (ltb (bidAmount_of b) (StartingBid b) = true →
        PlaceBid now a id = (a, Some (err_below_starting b)))
       ∧ (ltb (bidAmount_of b) (StartingBid b) = false →
          gtb (bidAmount_of b) (MaxBid b) = true →
          PlaceBid now a id = (a, Some (err_exceeded b)))
       ∧ (ltb (bidAmount_of b) (StartingBid b) = false →
          gtb (bidAmount_of b) (MaxBid b) = false →
          leb (bidAmount_of b) (CurrentBid b) = true →
          PlaceBid now a id = (a, Some (err_not_increasing b)))
       ∧ (ltb (bidAmount_of b) (StartingBid b) = false →
          gtb (bidAmount_of b) (MaxBid b) = false →
          leb (bidAmount_of b) (CurrentBid b) = false →
          PlaceBid now a id = (after_bid a b now, None)))
  ∧ (∀ e, (PlaceBid now a id).2 = Some e →
       (errors_Is_ErrExceededMaxBid e = true ↔
        ∃ b, Auction.storer a !! id = Some b ∧ e = err_exceeded b
             ∧ ltb (bidAmount_of b) (StartingBid b) = false
             ∧ gtb (bidAmount_of b) (MaxBid b) = true)).
Proof.
  rewrite PlaceBid_unfold. split_and!.
  - by intros ->.
  - intros b ->. split_and!; intros; by repeat simplify_option_eq || case_match.
  - intros e. destruct (Auction.storer a !! id) as [b|] eqn:Hb; simpl.
    + destruct (ltb (bidAmount_of b) (StartingBid b)) eqn:H1;
        [|destruct (gtb (bidAmount_of b) (MaxBid b)) eqn:H2;
          [|destruct (leb (bidAmount_of b) (CurrentBid b)) eqn:H3]];
        simpl; intros [= <-].
      * split; [done|]. by intros (b' & [= <-] & [=] & _).
      * split; [|done]. intros _. by exists b.
      * split; [done|]. by intros (b' & [= <-] & [=] & _).
    + intros [= <-]. split; [done|]. by intros (b' & [=] & _).
Qed.

(** ** Sequences of bids *)

Section bid_sequences.

Implicit Types (a : Auction.t) (b : bidder) (id : N) (now : Z).

Lemma PlaceBid_exceeded now a id e :
  (PlaceBid now a id).2 = Some e →
  errors_Is_ErrExceededMaxBid e = true →
  ∃ b, Auction.storer a !! id = Some b
       ∧ ltb (bidAmount_of b) (StartingBid b) = false
       ∧ gtb (bidAmount_of b) (MaxBid b) = true.
Proof.
  rewrite PlaceBid_unfold.
  destruct (Auction.storer a !! id) as [b|]; [|by intros [= <-]].
  destruct (ltb (bidAmount_of b) (StartingBid b)) eqn:H1;
    [by intros [= <-]|].
  destruct (gtb (bidAmount_of b) (MaxBid b)) eqn:H2; [by eauto|].
  destruct (leb (bidAmount_of b) (CurrentBid b)); by intros [= <-].
Qed.

Lemma PlaceBid_at_cap now a id b :
  Auction.storer a !! id = Some b →
  ltb (bidAmount_of b) (StartingBid b) = false →
  gtb (bidAmount_of b) (MaxBid b) = true →
  PlaceBid now a id = (a, Some (err_exceeded b)).
Proof. intros Hb H1 H2. by rewrite PlaceBid_unfold, Hb, H1, H2. Qed.

(** A bidder at its cap stays as it is, whatever calls come. *)
Lemma PlaceBids_at_cap calls a id b :
  keyed (Auction.storer a) →
  Auction.storer a !! id = Some b →
  ltb (bidAmount_of b) (StartingBid b) = false →
  gtb (bidAmount_of b) (MaxBid b) = true →
  Auction.storer (PlaceBids a calls) !! id = Some b.
Proof.
  intros Hk Hb H1 H2. revert a Hk Hb.
  induction calls as [|[now id'] calls IH]; intros a Hk Hb; [done|].
  simpl. apply IH.
  - by apply PlaceBid_keyed.
  - destruct (decide (id' = id)) as [->|Hne].
    + by rewrite (PlaceBid_at_cap now a id b).
    + by rewrite PlaceBid_other.
Qed.

Lemma PlaceBid_stores now a id b a' :
  keyed (Auction.storer a) →
  Auction.storer a !! id = Some b →
  PlaceBid now a id = (a', None) →
  Auction.storer a' !! id = Some (with_bid b (bidAmount_of b) now)
  ∧ gtb (bidAmount_of b) (MaxBid b) = false
  ∧ leb (bidAmount_of b) (CurrentBid b) = false.
Proof.
  intros Hk Hb (b' & Hb' & _ & H2 & H3 & ->)%PlaceBid_success.
  assert (b' = b) as -> by congruence. split_and!; [|done..].
  simpl. rewrite (Hk _ _ Hb). apply lookup_insert_eq.
Qed.

End bid_sequences.

(** C2, as the code has it.  For a bidder [b] stored under [id] in an
    auction reachable from [NewAuction] through calls of [PlaceBid]:
    - a successful call stores [b] with the current bid replaced by the
      float64 sum of the current bid and the increment, and the time of
      the last bid by the call's instant; the new bid is strictly above the
      old one whenever that sum is a number (a NaN sum passes the three
      checks and is stored too);
    - a call whose amount is above the maximum fails with the error
      wrapping [ErrExceededMaxBid];
    - once a call for [id] has failed with that error, the record of [id]
      stays [b] through any later calls, for [id] or for other bidders, and
      every later call for [id] fails with the same error. *)
Theorem PlaceBid_sequence (na : NewAuctionConfig.t) (a : Auction.t) (id : N)
    (b : bidder) :
  reachable na a →
  Auction.storer a !! id = Some b →
  (∀ now a', PlaceBid now a id = (a', None) →
     Auction.storer a' !! id = Some (with_bid b (bidAmount_of b) now)
     ∧ (is_nan (bidAmount_of b) = false →
        ltb (CurrentBid b) (bidAmount_of b) = true))
  ∧ (gtb (bidAmount_of b) (MaxBid b) = true →
     ∀ now, PlaceBid now a id = (a, Some (err_exceeded b)))
  ∧ (∀ now e, (PlaceBid now a id).2 = Some e →
       errors_Is_ErrExceededMaxBid e = true →
       ∀ calls now',
         Auction.storer (PlaceBids a calls) !! id = Some b
         ∧ PlaceBid now' (PlaceBids a calls) id
           = (PlaceBids a calls, Some (err_exceeded b))).
Proof.
  intros Hr Hb. pose proof (reachable_keyed _ _ Hr) as Hk. split_and!.
  - intros now a' Hok.
    destruct (PlaceBid_stores _ _ _ _ _ Hk Hb Hok) as (Hst & _ & Hle).
    split; [done|]. intros Hnan.
    destruct (add_nan _ _ Hnan) as [Hcur _].
    by apply (leb_false_gtb _ _ Hnan Hcur).
  - intros Hgt now. apply PlaceBid_at_cap; [done| |done].
    apply (gtb_max_not_below _ (MaxBid b)); [done|].
    destruct (reachable_fields _ _ Hr) as (Hrec & _).
    destruct (Hrec _ _ Hb) as (nb & _ & Hv & _ & _ & _ & -> & -> & _).
    by apply validateBidder_None in Hv as (_ & ? & _).
  - intros now e He His calls now'.
    destruct (PlaceBid_exceeded _ _ _ _ He His) as (b' & Hb' & H1 & H2).
    assert (b' = b) as -> by congruence.
    pose proof (PlaceBids_at_cap calls a id b Hk Hb H1 H2) as Hstay.
    split; [done|]. by apply PlaceBid_at_cap.
Qed.

Lemma PlaceBid_sequence_witness :
  (Auction.storer (PlaceBid 1 (Examples.started Examples.auction1) 1).1 !! 1%N
   = Some (with_bid (toNewBidder Examples.sasha) (of_Z 53) 1)
   ∧ ltb (of_Z 50) (of_Z 53) = true)
  ∧ (Auction.storer
       (PlaceBids Examples.sasha_at_max [(11, 1%N); (12, 2%N); (13, 1%N)])
       !! 1%N = Some Examples.sasha_80
     ∧ PlaceBid 14
         (PlaceBids Examples.sasha_at_max [(11, 1%N); (12, 2%N); (13, 1%N)]) 1
       = (PlaceBids Examples.sasha_at_max [(11, 1%N); (12, 2%N); (13, 1%N)],
          Some (err_exceeded Examples.sasha_80))).
Proof.
  split.
  - destruct (PlaceBid_sequence Examples.auction1
                (Examples.started Examples.auction1) 1
                (toNewBidder Examples.sasha)) as (Hstep & _ & _).
    + apply (reachable_new _ 9). reflexivity.
    + reflexivity.
    + destruct (Hstep 1 (PlaceBid 1 (Examples.started Examples.auction1) 1).1)
        as [Hst Hlt].
      * vm_compute. reflexivity.
      * split; [exact Hst | apply Hlt; reflexivity].
  - destruct (PlaceBid_sequence Examples.auction1 Examples.sasha_at_max 1
                Examples.sasha_80) as (_ & Hcap & Hstuck).
    + apply PlaceBids_reachable. apply (reachable_new _ 9). reflexivity.
    + vm_compute. reflexivity.
    + apply (Hstuck 11 (err_exceeded Examples.sasha_80)).
      * rewrite (Hcap eq_refl 11). reflexivity.
      * reflexivity.
Defined.

(** Against C2 as stated: the configuration [drifting] passes validation,
    two calls for its first bidder succeed, and the current bids 1, NaN,
    NaN they leave do not increase. *)
Lemma PlaceBid_nan_not_increasing :
  NewAuction 9 Examples.drifting = Ok (Examples.started Examples.drifting)
  ∧ let a0 := Examples.started Examples.drifting in
    let a1 := (PlaceBid 1 a0 1).1 in
    let a2 := (PlaceBid 2 a1 1).1 in
    (PlaceBid 1 a0 1).2 = None
    ∧ (PlaceBid 2 a1 1).2 = None
    ∧ CurrentBid <$> Auction.storer a0 !! 1%N = Some (of_Z 1)
    ∧ CurrentBid <$> Auction.storer a1 !! 1%N = Some NaN
    ∧ CurrentBid <$> Auction.storer a2 !! 1%N = Some NaN
    ∧ ltb (of_Z 1) NaN = false
    ∧ ltb NaN NaN = false.
Proof. vm_compute. repeat split. Qed.

(** ** The cap on bids *)

Section bid_cap.

Implicit Types (a : Auction.t) (b : bidder) (id : N) (now : Z).

Lemma PlaceBid_capped now a id :
  capped (Auction.storer a) → capped (Auction.storer (PlaceBid now a id).1).
Proof.
  intros Hc. destruct (PlaceBid now a id) as [a' [e|]] eqn:Hcall; simpl.
  - by apply PlaceBid_failure in Hcall as ->.
  - apply PlaceBid_success in Hcall as (b & Hb & _ & Hcap & _ & ->).
    intros id' b'. simpl. rewrite lookup_insert. case_decide.
    + by intros [= <-].
    + apply Hc.
Qed.

Lemma NewAuction_capped fresh na a :
  (∀ nb, nb ∈ NewAuctionConfig.Bidders na →
         gtb (NewBidder.CurrentBid nb) (NewBidder.MaxBid nb) = false) →
  NewAuction fresh na = Ok a → capped (Auction.storer a).
Proof.
  intros Hseed Hnew. pose proof (NewAuction_Ok_valid _ _ _ Hnew) as Hv.
  destruct (NewAuction_valid fresh na Hv) as (a' & Hnew' & _ & Hlook).
  assert (a' = a) as -> by congruence.
  intros id b (nb & Hin & _ & ->)%Hlook. by apply Hseed.
Qed.

End bid_cap.

(** C4, as the code has it.  In every auction reachable from [NewAuction]
    through calls of [PlaceBid]:
    - after a successful call for [id] the record of [id] has a current bid
      that is not above its maximum ([>] is false), and at most the maximum
      ([<=] is true) when neither is NaN;
    - if no bidder of the configuration was seeded with a current bid above
      its maximum, no stored bidder has one.
    The seeded current bid itself is not validated. *)
Theorem PlaceBid_keeps_cap (na : NewAuctionConfig.t) (a : Auction.t) :
  reachable na a →
  (∀ now id a', PlaceBid now a id = (a', None) →
     ∃ b', Auction.storer a' !! id = Some b'
       ∧ gtb (CurrentBid b') (MaxBid b') = false
       ∧ (is_nan (CurrentBid b') = false → is_nan (MaxBid b') = false →
          leb (CurrentBid b') (MaxBid b') = true))
  ∧ ((∀ nb, nb ∈ NewAuctionConfig.Bidders na →
        gtb (NewBidder.CurrentBid nb) (NewBidder.MaxBid nb) = false) →
     ∀ id b, Auction.storer a !! id = Some b →
       gtb (CurrentBid b) (MaxBid b) = false).
Proof.
  intros Hr. split.
  - intros now id a' Hok. pose proof (reachable_keyed _ _ Hr) as Hk.
    pose proof Hok as (b & Hb & _)%PlaceBid_success.
    destruct (PlaceBid_stores _ _ _ _ _ Hk Hb Hok) as (Hst & Hcap & _).
    eexists. split_and!; [exact Hst|exact Hcap|].
    simpl. intros Hn1 Hn2. by apply gtb_false_leb.
  - intros Hseed. induction Hr as [fresh a Hnew|a now id _ IH].
    + by eapply NewAuction_capped.
    + by apply PlaceBid_capped.
Qed.

Lemma PlaceBid_keeps_cap_witness :
  (∃ b', Auction.storer (PlaceBid 1 (Examples.started Examples.auction1) 1).1
           !! 1%N = Some b'
     ∧ gtb (CurrentBid b') (MaxBid b') = false
     ∧ (is_nan (CurrentBid b') = false → is_nan (MaxBid b') = false →
        leb (CurrentBid b') (MaxBid b') = true))
  ∧ (∀ id b, Auction.storer Examples.sasha_at_max !! id = Some b →
       gtb (CurrentBid b) (MaxBid b) = false).
Proof.
  split.
  - destruct (PlaceBid_keeps_cap Examples.auction1
                (Examples.started Examples.auction1)) as [Hstep _].
    + apply (reachable_new _ 9). reflexivity.
    + apply (Hstep 1 1%N). vm_compute. reflexivity.
  - destruct (PlaceBid_keeps_cap Examples.auction1 Examples.sasha_at_max)
      as [_ Hall].
    + apply PlaceBids_reachable. apply (reachable_new _ 9). reflexivity.
    + apply Hall. intros nb Hin.
      repeat (apply elem_of_cons in Hin as [->|Hin]; [reflexivity|]).
      by apply elem_of_nil in Hin.
Defined.

(** Against C4 as stated: [overspent] passes validation, and the auction
    [NewAuction] returns holds a bidder whose current bid, 100, is above its
    maximum, 2. *)
Lemma seeded_bid_above_max :
  NewAuction 9 Examples.overspent = Ok (Examples.started Examples.overspent)
  ∧ ∃ b, Auction.storer (Examples.started Examples.overspent) !! 1%N = Some b
         ∧ CurrentBid b = of_Z 100
         ∧ MaxBid b = of_Z 2
         ∧ leb (CurrentBid b) (MaxBid b) = false.
Proof.
  split; [reflexivity|]. eexists. split; [reflexivity|]. by vm_compute.
Qed.

(** ** Validation of a configuration *)

(** C5, as the code has it.  [validateAuctionData] fails with "at least two
    bidders" exactly when fewer than two bidders are supplied, and succeeds
    exactly when there are at least two, their identifiers are pairwise
    distinct and each passes [validateBidder].  Otherwise one loop goes
    through the bidders in input order and stops at the first bidder that
    either repeats the identifier of an earlier one (duplicate identifier,
    naming that identifier) or, its identifier being new, fails
    [validateBidder] (invalid bidder data, wrapping the reason): a duplicate
    is reported only if no bidder before its second occurrence is invalid.
    [validateBidder] gives as reason the first of: starting bid [<= 0],
    maximum [<] starting bid, increment [<= 0]. *)
Theorem validateAuctionData_scan (na : NewAuctionConfig.t) :
  let bidders := NewAuctionConfig.Bidders na in
  (validateAuctionData na = Some err_insufficient ↔ (length bidders < 2)%nat)
  ∧ (validateAuctionData na = None ↔
     (2 ≤ length bidders)%nat
     ∧ NoDup (NewBidder.ID <$> bidders)
     ∧ Forall (λ nb, validateBidder nb = None) bidders)
  ∧ (∀ pre nb post,
       (2 ≤ length bidders)%nat →
       bidders = pre ++ nb :: post →
       NoDup (NewBidder.ID <$> pre) →
       Forall (λ nb', validateBidder nb' = None) pre →
       (NewBidder.ID nb ∈ NewBidder.ID <$> pre →
        validateAuctionData na = Some (err_duplicate (NewBidder.ID nb)))
       ∧ (NewBidder.ID nb ∉ NewBidder.ID <$> pre →
          ∀ reason, validateBidder nb = Some reason →
            validateAuctionData na
            = Some (err_invalid_bidder (NewBidder.ID nb) reason)))
  ∧ (∀ nb, validateBidder nb =
       if leb (NewBidder.StartingBid nb) zero then Some (err_starting_bid nb)
       else if ltb (NewBidder.MaxBid nb) (NewBidder.StartingBid nb)
            then Some (err_max_bid nb)
       else if leb (NewBidder.AutoIncrement nb) zero
            then Some (err_increment nb)
       else None).
Proof.
  intros bidders. split_and!.
  - split.
    + intros H. destruct (Nat.lt_ge_cases (length bidders) 2) as [|Hge]; [done|].
      rewrite validateAuctionData_long in H by done.
      by apply validateBidders_shape in H as [[id [=]]|(id & reason & [=])].
    + apply validateAuctionData_short.
  - apply validateAuctionData_None.
  - intros pre nb post Hlen Hsplit Hnd Hvalid.
    rewrite validateAuctionData_long by done. fold bidders. rewrite Hsplit.
    rewrite validateBidders_app; [|done..|intros; apply lookup_empty].
    simpl. pose proof (seen_after_lookup pre ∅ (NewBidder.ID nb)) as Hseen.
    rewrite lookup_empty in Hseen. split.
    + intros Hin.
      destruct (seen_after ∅ pre !! NewBidder.ID nb) eqn:E; [done|].
      destruct Hseen as [_ Hseen]. destruct Hseen as [? [=]]. by right.
    + intros Hnotin reason Hreason.
      destruct (seen_after ∅ pre !! NewBidder.ID nb) eqn:E.
      * destruct Hseen as [Hseen _].
        destruct Hseen as [[? [=]]|?]; [by eexists|done].
      * by rewrite Hreason.
  - done.
Qed.

Lemma validateAuctionData_scan_witness :
  validateAuctionData Examples.twins
  = Some (err_invalid_bidder 1 (err_starting_bid Examples.penniless)).
Proof.
  destruct (validateAuctionData_scan Examples.twins) as (_ & _ & Hfirst & _).
  destruct (Hfirst [] Examples.penniless [Examples.john; Examples.johnny])
    as [_ Hinvalid].
  - simpl. lia.
  - reflexivity.
  - constructor.
  - constructor.
  - apply Hinvalid; [|reflexivity]. intros Hin. by apply elem_of_nil in Hin.
Defined.

(** Against C5 as stated: in [twins] two records share the identifier 2,
    yet the error is the invalid data of the first bidder, not a duplicate
    identifier. *)
Lemma duplicate_behind_invalid :
  NewBidder.ID Examples.john = NewBidder.ID Examples.johnny
  ∧ NewAuctionConfig.Bidders Examples.twins !! 1%nat = Some Examples.john
  ∧ NewAuctionConfig.Bidders Examples.twins !! 2%nat = Some Examples.johnny
  ∧ validateAuctionData Examples.twins
    = Some (err_invalid_bidder 1 (err_starting_bid Examples.penniless))
  ∧ ∀ id, validateAuctionData Examples.twins ≠ Some (err_duplicate id).
Proof.
  split_and!; [reflexivity..|]. intros id H. vm_compute in H. discriminate H.
Qed.

(** ** Construction *)

(** C6. [NewAuction] is all or nothing.  When validation fails, and it does
    as soon as one bidder fails [validateBidder], the call returns the
    validation error wrapped as "invalid auction data" and no auction, hence
    no store.  When the call succeeds, validation had passed, the auction
    carries the fresh identifier, and its store maps an identifier to a
    record exactly when the record is the conversion of an input bidder with
    that identifier; the conversion keeps every field as supplied, the
    current bid and the time of the last bid included. *)
Theorem NewAuction_all_or_nothing (fresh : N) (na : NewAuctionConfig.t) :
  (∀ e, validateAuctionData na = Some e →
        NewAuction fresh na = Err (err_invalid_auction e))
  ∧ ((∃ nb, nb ∈ NewAuctionConfig.Bidders na ∧ validateBidder nb ≠ None) →
     ∃ e, validateAuctionData na = Some e
          ∧ NewAuction fresh na = Err (err_invalid_auction e))
  ∧ (validateAuctionData na = None → ∃ a, NewAuction fresh na = Ok a)
  ∧ (∀ a, NewAuction fresh na = Ok a →
       validateAuctionData na = None
       ∧ Auction.ID a = fresh
       ∧ (∀ id b, Auction.storer a !! id = Some b ↔
            ∃ nb, nb ∈ NewAuctionConfig.Bidders na
                  ∧ NewBidder.ID nb = id ∧ b = toNewBidder nb)
       ∧ size (Auction.storer a) = length (NewAuctionConfig.Bidders na))
  ∧ (∀ nb, ID (toNewBidder nb) = NewBidder.ID nb
           ∧ Name (toNewBidder nb) = NewBidder.Name nb
           ∧ StartingBid (toNewBidder nb) = NewBidder.StartingBid nb
           ∧ MaxBid (toNewBidder nb) = NewBidder.MaxBid nb
           ∧ CurrentBid (toNewBidder nb) = NewBidder.CurrentBid nb
           ∧ AutoIncrement (toNewBidder nb) = NewBidder.AutoIncrement nb
           ∧ LastBidTime (toNewBidder nb) = NewBidder.LastBidTime nb).
Proof.
  split_and!.
  - intros e. apply NewAuction_invalid.
  - intros (nb & Hin & Hbad).
    destruct (validateAuctionData na) as [e|] eqn:Hv.
    + exists e. split; [done|]. by apply NewAuction_invalid.
    + apply validateAuctionData_None in Hv as (_ & _ & Hall).
      rewrite Forall_forall in Hall. by specialize (Hall nb Hin).
  - intros Hv. destruct (NewAuction_valid fresh na Hv) as (a & Ha & _). eauto.
  - intros a Hnew. pose proof (NewAuction_Ok_valid _ _ _ Hnew) as Hv.
    destruct (NewAuction_valid fresh na Hv) as (a' & Hnew' & Hid & Hlook).
    assert (a' = a) as -> by congruence. split_and!; [done..|].
    by apply (NewAuction_size fresh).
  - done.
Qed.

(** ** The winner *)

Section list_bidders.

Lemma ListBidders_elem (store : gmap N bidder) (bdrs : list bidder) (b : bidder) :
  ListBidders store bdrs → (b ∈ bdrs ↔ ∃ id, store !! id = Some b).
Proof.
  unfold ListBidders, records. intros ->. rewrite list_elem_of_fmap. split.
  - intros ([id b'] & -> & Hin%elem_of_map_to_list). by exists id.
  - intros [id Hb]. exists (id, b). split; [done|].
    by apply elem_of_map_to_list.
Qed.

Lemma ListBidders_nil (store : gmap N bidder) : ListBidders store [] ↔ store = ∅.
Proof.
  unfold ListBidders, records. split.
  - intros H. apply Permutation_nil in H.
    apply fmap_nil_inv in H. by apply map_to_list_empty_iff.
  - intros ->. by rewrite map_to_list_empty.
Qed.

Lemma ListBidders_empty (bdrs : list bidder) : ListBidders ∅ bdrs → bdrs = [].
Proof.
  unfold ListBidders, records. rewrite map_to_list_empty. simpl.
  apply Permutation_nil_r.
Qed.

Lemma ListBidders_Forall (P : bidder → Prop) (store : gmap N bidder)
    (bdrs : list bidder) :
  ListBidders store bdrs →
  (Forall P bdrs ↔ ∀ id b, store !! id = Some b → P b).
Proof.
  intros Hs. rewrite Forall_forall. split.
  - intros H id b Hb. apply H. apply (ListBidders_elem _ _ _ Hs). eauto.
  - intros H b [id Hb]%(ListBidders_elem _ _ _ Hs). eauto.
Qed.

Lemma zero_bidder_unnamed : ¬ named zero_bidder.
Proof. intros H. by apply H. Qed.

Lemma scanBidders_unnamed (bdrs : list bidder) :
  Forall (λ b, ¬ named b) bdrs → ¬ named (scanBidders bdrs).
Proof.
  intros Hall. destruct (scanFrom_elem zero_bidder bdrs) as [Hz|Hin].
  - unfold scanBidders. rewrite Hz. apply zero_bidder_unnamed.
  - rewrite Forall_forall in Hall. by apply Hall.
Qed.

Lemma scanBidders_named (bdrs : list bidder) :
  named (scanBidders bdrs) → scanBidders bdrs ∈ bdrs.
Proof.
  intros Hn. destruct (scanFrom_elem zero_bidder bdrs) as [Hz|Hin]; [|done].
  unfold scanBidders in Hn. rewrite Hz in Hn. by apply zero_bidder_unnamed in Hn.
Qed.

Lemma scanBidders_last_named (bdrs : list bidder) (b : bidder) :
  named b → named (scanBidders (bdrs ++ [b])).
Proof.
  intros Hb. unfold scanBidders. rewrite scanFrom_snoc.
  destruct (isWinner (scanFrom zero_bidder bdrs) b) eqn:E; [done|].
  destruct (decide (named (scanFrom zero_bidder bdrs))) as [|Hun]; [done|].
  by rewrite (isWinner_unnamed _ b Hun) in E.
Qed.

(** Over a slice of named bidders the scan returns a least bidder for
    [beats]. *)
Lemma DetermineWinnerOf_min (bdrs : list bidder) :
  Forall named bdrs → bdrs ≠ [] →
  ∃ B, B ∈ bdrs
       ∧ DetermineWinnerOf bdrs = Ok (winner_of B)
       ∧ ∀ b, b ∈ bdrs → beats b B = false.
Proof.
  intros Hall Hne. exists (scanBidders bdrs).
  destruct bdrs as [|b0 bdrs]; [done|].
  pose proof Hall as [Hb0 Hrest]%Forall_cons.
  destruct (scanFrom_min b0 bdrs Hb0 Hrest) as (Hn & Hfirst & Hmin).
  split_and!.
  - by apply scanBidders_elem.
  - by apply DetermineWinnerOf_Ok.
  - rewrite scanBidders_cons.
    intros b [->|Hin]%elem_of_cons; [|by apply Hmin].
    destruct Hfirst as [->|Hlt]; [apply beats_irrefl | by apply beats_asym].
Qed.

End list_bidders.

(** C7, as the code has it.  The only error of [DetermineWinner] is "no
    winner".  It is returned exactly when the slice of bidders is empty or
    the candidate the scan ends with is a listed bidder with an empty name;
    so it is returned when no listed bidder has a name, and a winner, the
    identifier and name of a listed bidder with a name, is returned when the
    slice is not empty and every listed bidder has a name, and also when
    the last bidder of the slice has a name.  A bidder with an empty name
    that becomes the candidate is taken for "no candidate": with names and
    empty names mixed the outcome follows the order of the slice. *)
Theorem DetermineWinnerOf_no_winner (bdrs : list bidder) :
  (∀ e, DetermineWinnerOf bdrs = Err e → e = err_no_winner)
  ∧ (DetermineWinnerOf bdrs = Err err_no_winner ↔
     bdrs = [] ∨ (scanBidders bdrs ∈ bdrs ∧ ¬ named (scanBidders bdrs)))
  ∧ (Forall (λ b, ¬ named b) bdrs →
     DetermineWinnerOf bdrs = Err err_no_winner)
  ∧ (bdrs ≠ [] → Forall named bdrs →
     ∃ b, b ∈ bdrs ∧ DetermineWinnerOf bdrs = Ok (winner_of b))
  ∧ (∀ b, named b →
     ∃ b', b' ∈ bdrs ++ [b] ∧ named b'
           ∧ DetermineWinnerOf (bdrs ++ [b]) = Ok (winner_of b'))
  ∧ (∀ winner, DetermineWinnerOf bdrs = Ok winner →
     ∃ b, b ∈ bdrs ∧ named b ∧ winner = winner_of b)
  ∧ (∀ a, ListBidders (Auction.storer a) bdrs →
       (Auction.storer a = ∅ → DetermineWinnerOf bdrs = Err err_no_winner)
       ∧ ((∀ id b, Auction.storer a !! id = Some b → ¬ named b) →
          DetermineWinnerOf bdrs = Err err_no_winner)
       ∧ (Auction.storer a ≠ ∅ →
          (∀ id b, Auction.storer a !! id = Some b → named b) →
          ∃ id b, Auction.storer a !! id = Some b
                  ∧ DetermineWinnerOf bdrs = Ok (winner_of b))).
Proof.
  assert (Forall (λ b, ¬ named b) bdrs →
          DetermineWinnerOf bdrs = Err err_no_winner) as Hnone.
  { intros Hall. apply DetermineWinnerOf_Err.
    split; [by apply scanBidders_unnamed | done]. }
  assert (bdrs ≠ [] → Forall named bdrs →
          ∃ b, b ∈ bdrs ∧ DetermineWinnerOf bdrs = Ok (winner_of b)) as Hsome.
  { intros Hne Hall. exists (scanBidders bdrs).
    split; [by apply scanBidders_elem|]. apply DetermineWinnerOf_Ok.
    split; [|done]. destruct bdrs as [|b bdrs]; [done|].
    apply Forall_cons in Hall as [Hb Hall]. rewrite scanBidders_cons.
    by apply scanFrom_min. }
  split_and!.
  - by intros e [_ ->]%DetermineWinnerOf_Err.
  - rewrite DetermineWinnerOf_Err. split.
    + intros [Hun _]. destruct bdrs as [|b bdrs]; [by left|]. right.
      split; [by apply scanBidders_elem | done].
    + intros [->|[_ Hun]]; (split; [|done]); [apply zero_bidder_unnamed|done].
  - done.
  - done.
  - intros b Hb. pose proof (scanBidders_last_named bdrs b Hb) as Hn.
    exists (scanBidders (bdrs ++ [b])).
    split_and!; [by apply scanBidders_named|done|].
    by apply DetermineWinnerOf_Ok.
  - intros winner [Hn ->]%DetermineWinnerOf_Ok.
    exists (scanBidders bdrs). split_and!; [by apply scanBidders_named|done..].
  - intros a Hs. split_and!.
    + intros Hempty. rewrite Hempty in Hs. apply ListBidders_empty in Hs.
      apply Hnone. subst bdrs. constructor.
    + intros Hall. apply Hnone. by apply (ListBidders_Forall _ _ _ Hs).
    + intros Hne Hall. destruct Hsome as (b & Hin & Hok).
      * intros ->. by apply ListBidders_nil in Hs.
      * by apply (ListBidders_Forall _ _ _ Hs).
      * apply (ListBidders_elem _ _ _ Hs) in Hin as [id Hb]. eauto.
Qed.

(** Against C7 as stated: [masked_pair] passes validation; its auction holds
    Anna, who has a name, and a bidder with an empty name and a lower bid;
    on the slice that lists Anna first, which [ListBidders] may return,
    [DetermineWinner] fails with "no winner". *)
Lemma no_winner_despite_name :
  NewAuction 9 Examples.masked_pair = Ok (Examples.started Examples.masked_pair)
  ∧ Auction.storer (Examples.started Examples.masked_pair) !! 3%N
    = Some (toNewBidder Examples.anna)
  ∧ named (toNewBidder Examples.anna)
  ∧ DetermineWinner (Examples.started Examples.masked_pair) (Err err_no_winner).
Proof.
  split_and!; [reflexivity|reflexivity|done|].
  exists (toNewBidders [Examples.anna; Examples.nameless]). split.
  - unfold ListBidders. apply (bool_decide_unpack _). by vm_compute.
  - reflexivity.
Qed.

(** C1, as the code has it.  When the slice is not empty and every listed
    bidder has a name, [DetermineWinner] returns a listed bidder [B] such
    that no listed bidder has a strictly lower current bid and none with an
    equal current bid has a strictly earlier time of last bid; so it is for
    every slice [ListBidders] may return for an auction whose bidders all
    have names.  In particular, for an auction with exactly two bidders,
    with names and equal current bids, the one whose last bid is earlier is
    returned, in whichever order the two are listed.  (A candidate with an
    empty name is replaced by whoever comes next, so with such bidders in
    the slice the winner need not have the lowest bid.) *)
Theorem DetermineWinnerOf_lowest_earliest :
  (∀ bdrs,
     Forall named bdrs → bdrs ≠ [] →
     ∃ B, B ∈ bdrs
          ∧ DetermineWinnerOf bdrs = Ok (winner_of B)
          ∧ ∀ b, b ∈ bdrs →
              ltb (CurrentBid b) (CurrentBid B) = false
              ∧ (eqb (CurrentBid b) (CurrentBid B)
                 && Before (LastBidTime b) (LastBidTime B)) = false)
  ∧ (∀ a bdrs,
       ListBidders (Auction.storer a) bdrs →
       Auction.storer a ≠ ∅ →
       (∀ id b, Auction.storer a !! id = Some b → named b) →
       ∃ id B, Auction.storer a !! id = Some B
          ∧ DetermineWinnerOf bdrs = Ok (winner_of B)
          ∧ ∀ id' b, Auction.storer a !! id' = Some b →
              ltb (CurrentBid b) (CurrentBid B) = false
              ∧ (eqb (CurrentBid b) (CurrentBid B)
                 && Before (LastBidTime b) (LastBidTime B)) = false)
  ∧ (∀ a A B r,
       Auction.storer a = <[ID A := A]> {[ID B := B]} →
       ID A ≠ ID B →
       named A → named B →
       eqb (CurrentBid A) (CurrentBid B) = true →
       Before (LastBidTime A) (LastBidTime B) = true →
       DetermineWinner a r →
       r = Ok (winner_of A)).
Proof.
  assert (∀ bdrs,
     Forall named bdrs → bdrs ≠ [] →
     ∃ B, B ∈ bdrs
          ∧ DetermineWinnerOf bdrs = Ok (winner_of B)
          ∧ ∀ b, b ∈ bdrs →
              ltb (CurrentBid b) (CurrentBid B) = false
              ∧ (eqb (CurrentBid b) (CurrentBid B)
                 && Before (LastBidTime b) (LastBidTime B)) = false) as Hmin.
  { intros bdrs Hall Hne.
    destruct (DetermineWinnerOf_min bdrs Hall Hne) as (B & Hin & Hok & HB).
    exists B. split_and!; [done..|]. intros b Hb. specialize (HB b Hb).
    unfold beats in HB. by apply orb_false_iff in HB. }
  split_and!.
  - exact Hmin.
  - intros a bdrs Hs Hne Hall. destruct (Hmin bdrs) as (B & Hin & Hok & HB).
    + by apply (ListBidders_Forall _ _ _ Hs).
    + intros ->. by apply ListBidders_nil in Hs.
    + apply (ListBidders_elem _ _ _ Hs) in Hin as [id Hid].
      exists id, B. split_and!; [done..|]. intros id' b Hb. apply HB.
      apply (ListBidders_elem _ _ _ Hs). eauto.
  - intros a A B r Hstore Hids HA HB Heq Hearly (bdrs & Hs & <-).
    assert (beats A B = true) as HAB.
    { unfold beats. by rewrite Heq, Hearly, orb_true_r. }
    assert (bdrs ≡ₚ [A; B]) as Hperm.
    { unfold ListBidders, records in Hs. rewrite Hs, Hstore.
      rewrite map_to_list_insert by by rewrite lookup_singleton_ne.
      by rewrite map_to_list_singleton. }
    apply DetermineWinnerOf_Ok.
    symmetry in Hperm. apply Permutation_length_2_inv in Hperm as [-> | ->].
    + rewrite scanBidders_cons. unfold scanFrom. simpl.
      rewrite (isWinner_named A B HA), (beats_asym _ _ HAB). done.
    + rewrite scanBidders_cons. unfold scanFrom. simpl.
      rewrite (isWinner_named B A HB), HAB. done.
Qed.

Lemma DetermineWinnerOf_lowest_earliest_witness :
  (∀ r, DetermineWinner Examples.tie r
        → r = Ok {| Winner.ID := 1; Winner.Name := "A" |})
  ∧ ∃ B, B ∈ [Examples.late; Examples.early]
         ∧ DetermineWinnerOf [Examples.late; Examples.early] = Ok (winner_of B)
         ∧ ∀ b, b ∈ [Examples.late; Examples.early] →
             ltb (CurrentBid b) (CurrentBid B) = false
             ∧ (eqb (CurrentBid b) (CurrentBid B)
                && Before (LastBidTime b) (LastBidTime B)) = false.
Proof.
  destruct DetermineWinnerOf_lowest_earliest as (Hmin & _ & Htie).
  split.
  - intros r Hr.
    apply (Htie Examples.tie Examples.early Examples.late r);
      [reflexivity|done|done|done|reflexivity|reflexivity|exact Hr].
  - apply Hmin; [by repeat constructor | done].
Defined.

(** Against C1 as stated: [masked] passes validation; on the slice Anna
    (bid 10), the bidder without a name (bid 5), Carl (bid 20), which
    [ListBidders] may return, [DetermineWinner] returns Carl, and Anna's
    current bid is strictly lower than his. *)
Lemma winner_above_lower_bid :
  NewAuction 9 Examples.masked = Ok (Examples.started Examples.masked)
  ∧ DetermineWinner (Examples.started Examples.masked)
      (Ok (winner_of (toNewBidder Examples.carl)))
  ∧ Auction.storer (Examples.started Examples.masked) !! 3%N
    = Some (toNewBidder Examples.anna)
  ∧ ltb (CurrentBid (toNewBidder Examples.anna))
        (CurrentBid (toNewBidder Examples.carl)) = true.
Proof.
  split_and!; [reflexivity| |reflexivity|reflexivity].
  exists (toNewBidders [Examples.anna; Examples.nameless; Examples.carl]). split.
  - unfold ListBidders. apply (bool_decide_unpack _). by vm_compute.
  - reflexivity.
Qed.

(** ** Parallel callers *)

Section parallel.

Implicit Types (a : Auction.t) (b : bidder) (id : N) (now : Z)
  (store : gmap N bidder) (g : goroutine) (pool : list goroutine).

Lemma PlaceBid_by_checks now a id :
  PlaceBid now a id =
  match Auction.storer a !! id with
  | None => (a, Some err_not_found)
  | Some b =>
      match checks b with
      | Some e => (a, Some e)
      | None => (after_bid a b now, None)
      end
  end.
Proof.
  rewrite PlaceBid_unfold. unfold checks.
  destruct (Auction.storer a !! id) as [b|]; [|done].
  by repeat case_match.
Qed.

Lemma PlaceBids_snoc a calls now id :
  PlaceBids a (calls ++ [(now, id)]) = (PlaceBid now (PlaceBids a calls) id).1.
Proof. unfold PlaceBids. by rewrite fold_left_app. Qed.

Lemma checks_capped b : checks b = None → gtb (bidAmount_of b) (MaxBid b) = false.
Proof. unfold checks. by repeat case_match. Qed.

Lemma advance_inv now store g store' g' :
  advance now store g = Some (store', g') →
  (∃ id b, inflight g = Some (id, b)
     ∧ store' = <[ID b := with_bid b (bidAmount_of b) now]> store
     ∧ g' = mkGoroutine (returned g ++ [(now, id)]) None (todo g))
  ∨ (∃ id rest, inflight g = None ∧ todo g = id :: rest
       ∧ store' = store
       ∧ g' = mkGoroutine (returned g ++ [(now, id)]) None rest
       ∧ (store !! id = None ∨ ∃ b e, store !! id = Some b ∧ checks b = Some e))
  ∨ (∃ id rest b, inflight g = None ∧ todo g = id :: rest
       ∧ store' = store
       ∧ store !! id = Some b ∧ checks b = None
       ∧ g' = mkGoroutine (returned g) (Some (id, b)) rest).
Proof.
  unfold advance, GetBidder, UpdateBidder.
  destruct (inflight g) as [[id b]|] eqn:Hin.
  { intros [= <- <-]. left. by exists id, b. }
  destruct (todo g) as [|id rest] eqn:Htodo; [done|].
  destruct (store !! id) as [b|] eqn:Hb.
  - destruct (checks b) as [e|] eqn:Hc; intros [= <- <-].
    + right. left. exists id, rest. split_and!; try done. right. eauto.
    + right. right. by exists id, rest, b.
  - intros [= <- <-]. right. left. exists id, rest. split_and!; try done.
    by left.
Qed.

(** A goroutine can take a step unless it has finished. *)
Lemma advance_None now store g :
  advance now store g = None ↔ inflight g = None ∧ todo g = [].
Proof.
  unfold advance. destruct (inflight g) as [[id b]|].
  { split; [done|]. by intros [[=] _]. }
  destruct (todo g) as [|id rest]; [done|].
  split; [|by intros [_ [=]]]. by repeat case_match.
Qed.

Lemma advance_calls_of now store g store' g' :
  advance now store g = Some (store', g') → calls_of g' = calls_of g.
Proof.
  intros [(id & b & Hin & _ & ->)|[(id & rest & Hin & Htodo & _ & -> & _)
    |(id & rest & b & Hin & Htodo & _ & _ & _ & ->)]]%advance_inv;
    unfold calls_of; simpl; rewrite ?Hin, ?Htodo, ?fmap_app; simpl;
    by rewrite <- ?app_assoc.
Qed.

Lemma serialized_spawn a0 idss :
  keyed (Auction.storer a0) →
  serialized a0 idss (Auction.storer a0, spawn <$> idss).
Proof.
  intros Hk. split_and!; simpl; [done|by rewrite length_fmap|].
  intros i g Hg. rewrite list_lookup_fmap in Hg.
  destruct (idss !! i) as [ids|]; simplify_eq/=. by split_and!.
Qed.

Lemma calls_of_inflight g id b : inflight g = Some (id, b) → id ∈ calls_of g.
Proof. intros H. unfold calls_of. rewrite H. set_solver. Qed.

Lemma calls_of_todo g id rest : todo g = id :: rest → id ∈ calls_of g.
Proof. intros H. unfold calls_of. rewrite H. set_solver. Qed.

(** A step changes the store at most under the identifier of the call the
    goroutine has in flight. *)
Lemma advance_elsewhere now store g store' g' id :
  keyed store →
  (∀ id0 b, inflight g = Some (id0, b) → store !! id0 = Some b) →
  advance now store g = Some (store', g') →
  id ∉ calls_of g → store' !! id = store !! id.
Proof.
  intros Hk Hheld Hadv Hid.
  apply advance_inv in Hadv
    as [(id0 & b & Hin & -> & _)|[(?&?&?&?&->&_)|(?&?&?&?&?&->&_)]]; try done.
  pose proof (Hheld _ _ Hin) as Hb. apply lookup_insert_ne.
  rewrite (Hk _ _ Hb). intros ->. apply Hid. by eapply calls_of_inflight.
Qed.

Lemma advance_keyed now store g store' g' :
  keyed store → advance now store g = Some (store', g') → keyed store'.
Proof.
  intros Hk Hadv.
  apply advance_inv in Hadv
    as [(id0 & b & Hin & -> & _)|[(?&?&?&?&->&_)|(?&?&?&?&?&->&_)]]; try done.
  change (ID b) with (ID (with_bid b (bidAmount_of b) now)).
  by apply keyed_insert.
Qed.

(** The goroutine that steps stays in line with its own calls run alone. *)
Lemma advance_agrees a0 now store g store' g' :
  keyed store →
  (∀ id, id ∈ calls_of g →
     store !! id = Auction.storer (PlaceBids a0 (returned g)) !! id) →
  (∀ id b, inflight g = Some (id, b) → store !! id = Some b ∧ checks b = None) →
  advance now store g = Some (store', g') →
  (∀ id, id ∈ calls_of g →
     store' !! id = Auction.storer (PlaceBids a0 (returned g')) !! id)
  ∧ (∀ id b, inflight g' = Some (id, b) →
       store' !! id = Some b ∧ checks b = None).
Proof.
  intros Hk Hagree Hheld Hadv.
  apply advance_inv in Hadv
    as [(id0 & b & Hin & -> & ->)
       |[(id0 & rest & Hin & Htodo & -> & -> & Hfail)
        |(id0 & rest & b & Hin & Htodo & -> & Hb & Hc & ->)]]; simpl.
  - destruct (Hheld _ _ Hin) as [Hb Hc]. split; [|done].
    pose proof (calls_of_inflight _ _ _ Hin) as Hid0.
    intros id Hid. rewrite PlaceBids_snoc, PlaceBid_by_checks.
    rewrite <- (Hagree id0 Hid0), Hb, Hc. simpl.
    rewrite !lookup_insert. case_decide; [done|]. by apply Hagree.
  - split; [|done]. pose proof (calls_of_todo _ _ _ Htodo) as Hid0.
    intros id Hid. rewrite PlaceBids_snoc, PlaceBid_by_checks.
    rewrite <- (Hagree id0 Hid0).
    destruct Hfail as [->|(b & e & -> & ->)]; simpl; by apply Hagree.
  - split; [done|]. by intros id b' [= <- <-].
Qed.

Lemma sched_step_serialized a0 idss c s s' :
  disjoint_bidders idss →
  serialized a0 idss s → sched_step c s = Some s' → serialized a0 idss s'.
Proof.
  intros Hdisj (Hk & Hlen & Hinv) Hstep.
  destruct s as [store pool], c as [i now]. unfold sched_step in Hstep.
  simpl in *. destruct (pool !! i) as [g|] eqn:Hg; [|done].
  destruct (advance now store g) as [[store' g']|] eqn:Hadv; [|done].
  injection Hstep as <-.
  pose proof (advance_calls_of _ _ _ _ _ Hadv) as Hcalls.
  destruct (Hinv i g Hg) as (Hids & Hagree & Hheld).
  assert (i < length pool)%nat as Hi by (by eapply lookup_lt_Some).
  destruct (advance_agrees a0 _ _ _ _ _ Hk Hagree Hheld Hadv)
    as [Hagree' Hheld'].
  split_and!; simpl.
  - by eapply advance_keyed.
  - by rewrite length_insert.
  - intros j gj Hgj. destruct (decide (j = i)) as [->|Hne].
    + rewrite list_lookup_insert_eq in Hgj by done. injection Hgj as <-.
      rewrite Hcalls. by split_and!.
    + rewrite list_lookup_insert_ne in Hgj by done.
      destruct (Hinv j gj Hgj) as (Hidsj & Hagreej & Hheldj).
      assert (∀ id, id ∈ calls_of gj → store' !! id = store !! id) as Hsame.
      { intros id Hid. eapply advance_elsewhere; [done| |done|].
        - intros id0 b Hin. by apply Hheld.
        - intros Hid'. by apply (Hdisj j i _ _ id Hne Hidsj Hids). }
      split_and!; [done| |].
      * intros id Hid. rewrite Hsame by done. by apply Hagreej.
      * intros id b Hin. rewrite Hsame; [by apply Hheldj|].
        by eapply calls_of_inflight.
Qed.

Lemma run_serialized a0 idss schedule s s' :
  disjoint_bidders idss →
  serialized a0 idss s → run schedule s = Some s' → serialized a0 idss s'.
Proof.
  intros Hdisj. revert s.
  induction schedule as [|c schedule IH]; intros s Hs Hrun; simpl in Hrun.
  - by injection Hrun as <-.
  - destruct (sched_step c s) as [s1|] eqn:Hstep; [|done].
    eapply IH; [|done]. by eapply sched_step_serialized.
Qed.

(** Steps keep the cap. *)
Lemma run_capped a0 idss schedule s s' :
  disjoint_bidders idss →
  serialized a0 idss s → capped s.1 → run schedule s = Some s' → capped s'.1.
Proof.
  intros Hdisj. revert s.
  induction schedule as [|c schedule IH]; intros s Hs Hcap Hrun; simpl in Hrun.
  - by injection Hrun as <-.
  - destruct (sched_step c s) as [s1|] eqn:Hstep; [|done].
    apply (IH s1); [by eapply sched_step_serialized| |done].
    destruct Hs as (Hk & _ & Hinv). destruct s as [store pool], c as [i now].
    unfold sched_step in Hstep. simpl in *.
    destruct (pool !! i) as [g|] eqn:Hg; [|done].
    destruct (advance now store g) as [[store' g']|] eqn:Hadv; [|done].
    injection Hstep as <-. simpl.
    destruct (Hinv i g Hg) as (_ & _ & Hheld).
    apply advance_inv in Hadv
      as [(id0 & b & Hin & -> & _)|[(?&?&?&?&->&_)|(?&?&?&?&?&->&_)]];
      try done.
    destruct (Hheld _ _ Hin) as [_ Hc]. intros id b'.
    rewrite lookup_insert. case_decide; [|apply Hcap].
    intros [= <-]. simpl. by apply checks_capped.
Qed.

End parallel.

(** C9, as the code has it, on interleavings of the store accesses (each of
    [GetBidder] and [UpdateBidder] runs under the store's lock, so the
    accesses of parallel calls come one after the other, in any order).
    When no two goroutines bid for the same bidder, then after any
    interleaving:
    - every goroutine has made or still has the calls it was given, in
      order, and once it has finished its log holds them all;
    - no update is lost: the record of each bidder a goroutine bids for is
      the record that the calls this goroutine has returned from, run alone
      and in order on the initial auction, leave;
    - no call puts a current bid above its maximum: if no record of the
      initial store has [currentBid > maxBid], none has afterwards. *)
Theorem parallel_bids_serialize (a0 : Auction.t) (idss : list (list N))
    (schedule : list (nat * Z)) (store : gmap N bidder)
    (pool : list goroutine) :
  keyed (Auction.storer a0) →
  disjoint_bidders idss →
  run schedule (Auction.storer a0, spawn <$> idss) = Some (store, pool) →
  (∀ i g, pool !! i = Some g →
     idss !! i = Some (calls_of g)
     ∧ (inflight g = None → todo g = [] → idss !! i = Some (returned g).*2)
     ∧ ∀ id, id ∈ calls_of g →
         store !! id = Auction.storer (PlaceBids a0 (returned g)) !! id)
  ∧ (capped (Auction.storer a0) → capped store).
Proof.
  intros Hk Hdisj Hrun.
  pose proof (serialized_spawn a0 idss Hk) as Hinit.
  pose proof (run_serialized _ _ _ _ _ Hdisj Hinit Hrun) as (_ & _ & Hinv).
  split.
  - intros i g Hg. destruct (Hinv i g Hg) as (Hids & Hagree & _).
    split_and!; [done| |done].
    intros Hin Htodo. rewrite Hids. unfold calls_of.
    by rewrite Hin, Htodo, !app_nil_r.
  - intros Hcap. by apply (run_capped _ _ _ _ _ Hdisj Hinit Hcap Hrun).
Qed.

Lemma race_bidders_disjoint : disjoint_bidders Examples.race_bidders.
Proof.
  intros i j ids ids' id Hne Hi Hj.
  destruct i as [|[|i]], j as [|[|j]]; simplify_eq/=;
    rewrite !elem_of_cons, !elem_of_nil; intros; destruct_or?; subst;
    intros ?; destruct_or?; done.
Qed.

Lemma auction1_capped :
  capped (Auction.storer (Examples.started Examples.auction1)).
Proof.
  change (map_Forall (λ _ b, gtb (CurrentBid b) (MaxBid b) = false)
            (Auction.storer (Examples.started Examples.auction1))).
  apply (bool_decide_unpack _). by vm_compute.
Qed.

Lemma parallel_bids_serialize_witness :
  run Examples.race_schedule Examples.race_start = Some Examples.race_end
  ∧ Examples.race_end.1 !! 1%N
    = Auction.storer
        (PlaceBids (Examples.started Examples.auction1) [(4, 1%N); (6, 1%N)])
      !! 1%N
  ∧ Examples.race_end.1 !! 2%N
    = Auction.storer (PlaceBids (Examples.started Examples.auction1) [(3, 2%N)])
      !! 2%N
  ∧ capped Examples.race_end.1.
Proof.
  assert (run Examples.race_schedule Examples.race_start
          = Some (Examples.race_end.1, Examples.race_end.2)) as Hrun
    by (vm_compute; reflexivity).
  destruct (parallel_bids_serialize (Examples.started Examples.auction1)
              Examples.race_bidders Examples.race_schedule
              Examples.race_end.1 Examples.race_end.2) as [Hlog Hcap].
  - apply (NewAuction_keyed 9 Examples.auction1). reflexivity.
  - exact race_bidders_disjoint.
  - exact Hrun.
  - split_and!.
    + vm_compute. reflexivity.
    + destruct (Hlog 0%nat (mkGoroutine [(4, 1%N); (6, 1%N)] None []))
        as (_ & _ & Hagree); [by vm_compute|].
      apply Hagree. by left.
    + destruct (Hlog 1%nat (mkGoroutine [(3, 2%N)] None []))
        as (_ & _ & Hagree); [by vm_compute|].
      apply Hagree. by left.
    + apply Hcap. exact auction1_capped.
Defined.

(** Against C9 as stated: in the auction of [drifting] every current bid is
    at most its maximum; two goroutines bid in parallel for its two bidders,
    both calls succeed, and the first bidder is left with a current bid,
    NaN, for which [currentBid <= maxBid] is false. *)
Lemma parallel_bid_breaks_cap :
  NewAuction 9 Examples.drifting = Ok (Examples.started Examples.drifting)
  ∧ map_Forall (λ _ b, leb (CurrentBid b) (MaxBid b) = true)
      (Auction.storer (Examples.started Examples.drifting))
  ∧ run Examples.drift_schedule Examples.drift_start = Some Examples.drift_end
  ∧ ∃ b, Examples.drift_end.1 !! 1%N = Some b
         ∧ MaxBid b = of_Z 10
         ∧ CurrentBid b = NaN
         ∧ leb (CurrentBid b) (MaxBid b) = false.
Proof.
  split_and!.
  - reflexivity.
  - apply (bool_decide_unpack _). by vm_compute.
  - vm_compute. reflexivity.
  - eexists. split; [by vm_compute|]. by vm_compute.
Qed.

(** ** Further properties *)

(** The third check of [PlaceBid] is live for a validated bidder: when the
    increment is lost in rounding, the call fails with "less than or equal
    to current bid". *)
Lemma PlaceBid_rounding_not_increasing :
  NewAuction 9 Examples.hoarding = Ok (Examples.started Examples.hoarding)
  ∧ PlaceBid 1 (Examples.started Examples.hoarding) 1
    = (Examples.started Examples.hoarding,
       Some (err_not_increasing (toNewBidder Examples.hoarder))).
Proof. split; [reflexivity|]. vm_compute. reflexivity. Qed.

(** X1. A call for one bidder leaves the record of every other bidder, and
    the identifier of the auction, as they were, whether the call succeeds
    or fails. *)
Theorem PlaceBid_frame (now : Z) (a : Auction.t) (id id' : N) :
  keyed (Auction.storer a) →
  id ≠ id' →
  Auction.storer (PlaceBid now a id).1 !! id' = Auction.storer a !! id'
  ∧ Auction.ID (PlaceBid now a id).1 = Auction.ID a.
Proof.
  intros Hk Hne. split; [by apply PlaceBid_other|].
  rewrite PlaceBid_unfold.
  destruct (Auction.storer a !! id); by repeat case_match.
Qed.

Lemma PlaceBid_frame_witness :
  Auction.storer (PlaceBid 1 (Examples.started Examples.auction1) 1).1 !! 2%N
  = Some (toNewBidder Examples.john)
  ∧ Auction.ID (PlaceBid 1 (Examples.started Examples.auction1) 1).1 = 9%N.
Proof.
  apply (PlaceBid_frame 1 (Examples.started Examples.auction1) 1 2).
  - apply (NewAuction_keyed 9 Examples.auction1). reflexivity.
  - discriminate.
Defined.

(** X2. The bidders of an auction are fixed at construction: in every auction
    reachable through [PlaceBid] the store holds one record per bidder of
    the configuration, under the bidder's identifier, and nothing else; the
    record still has the identifier, name, starting bid, maximum and
    increment that were supplied, and these passed [validateBidder].  Only
    the current bid and the time of the last bid change. *)
Theorem reachable_fixed_bidders (na : NewAuctionConfig.t) (a : Auction.t) :
  reachable na a →
  (∀ id b, Auction.storer a !! id = Some b →
     ∃ nb, nb ∈ NewAuctionConfig.Bidders na
           ∧ validateBidder nb = None
           ∧ id = NewBidder.ID nb
           ∧ ID b = NewBidder.ID nb
           ∧ Name b = NewBidder.Name nb
           ∧ StartingBid b = NewBidder.StartingBid nb
           ∧ MaxBid b = NewBidder.MaxBid nb
           ∧ AutoIncrement b = NewBidder.AutoIncrement nb)
  ∧ (∀ nb, nb ∈ NewAuctionConfig.Bidders na →
       is_Some (Auction.storer a !! NewBidder.ID nb))
  ∧ size (Auction.storer a) = length (NewAuctionConfig.Bidders na)
  ∧ dom (Auction.storer a)
    = list_to_set (NewBidder.ID <$> NewAuctionConfig.Bidders na).
Proof.
  intros Hr. destruct (reachable_fields na a Hr) as (Hrec & Hall & Hsize).
  split_and!; [done..|]. apply set_eq. intros id.
  rewrite elem_of_dom, elem_of_list_to_set, list_elem_of_fmap. split.
  - intros [b Hb]. destruct (Hrec _ _ Hb) as (nb & Hin & _ & -> & _). eauto.
  - intros (nb & -> & Hin). by apply Hall.
Qed.

Lemma reachable_fixed_bidders_witness :
  (∀ id b, Auction.storer Examples.sasha_at_max !! id = Some b →
     ∃ nb, nb ∈ NewAuctionConfig.Bidders Examples.auction1
           ∧ validateBidder nb = None
           ∧ id = NewBidder.ID nb
           ∧ ID b = NewBidder.ID nb
           ∧ Name b = NewBidder.Name nb
           ∧ StartingBid b = NewBidder.StartingBid nb
           ∧ MaxBid b = NewBidder.MaxBid nb
           ∧ AutoIncrement b = NewBidder.AutoIncrement nb)
  ∧ (∀ nb, nb ∈ NewAuctionConfig.Bidders Examples.auction1 →
       is_Some (Auction.storer Examples.sasha_at_max !! NewBidder.ID nb))
  ∧ size (Auction.storer Examples.sasha_at_max) = 3%nat
  ∧ dom (Auction.storer Examples.sasha_at_max)
    = list_to_set
        (NewBidder.ID <$> NewAuctionConfig.Bidders Examples.auction1).
Proof.
  apply (reachable_fixed_bidders Examples.auction1 Examples.sasha_at_max).
  apply PlaceBids_reachable. apply (reachable_new _ 9). reflexivity.
Defined.

(** X3. Between two bidders with names, equal current bids and the same
    time of last bid, the order of the slice decides: the one listed first
    is returned. *)
Theorem DetermineWinnerOf_tie_follows_order (A B : bidder) :
  named A → named B →
  eqb (CurrentBid A) (CurrentBid B) = true →
  LastBidTime A = LastBidTime B →
  DetermineWinnerOf [A; B] = Ok (winner_of A)
  ∧ DetermineWinnerOf [B; A] = Ok (winner_of B).
Proof.
  intros HA HB Heq Htime.
  assert (beats B A = false) as HBA.
  { unfold beats, Before. rewrite (eqb_not_ltb _ _ Heq), Htime, Z.ltb_irrefl.
    by rewrite andb_false_r. }
  assert (beats A B = false) as HAB.
  { unfold beats, Before. rewrite eqb_sym in Heq.
    rewrite (eqb_not_ltb _ _ Heq), Htime, Z.ltb_irrefl.
    by rewrite andb_false_r. }
  split; apply DetermineWinnerOf_Ok; rewrite scanBidders_cons;
    unfold scanFrom; simpl.
  - by rewrite (isWinner_named A B HA), HBA.
  - by rewrite (isWinner_named B A HB), HAB.
Qed.

Lemma DetermineWinnerOf_tie_follows_order_witness :
  DetermineWinnerOf [toNewBidder Examples.sasha; toNewBidder Examples.sasha']
  = Ok {| Winner.ID := 1; Winner.Name := "Sasha" |}
  ∧ DetermineWinnerOf [toNewBidder Examples.sasha'; toNewBidder Examples.sasha]
    = Ok {| Winner.ID := 4; Winner.Name := "Sascha" |}.
Proof.
  apply (DetermineWinnerOf_tie_follows_order
           (toNewBidder Examples.sasha) (toNewBidder Examples.sasha'));
    [done|done|reflexivity|reflexivity].
Defined.

(** The scenario "Auction #1" of the tests (Sasha 50/80/3, John
    60/82/2, Pat 55/85/5, bidding in turn until a pass places no bid): the
    loop ends after eleven passes with Sasha at 80, John at 80 and Pat at
    85, and [DetermineWinner] returns Sasha, whatever the order of the
    slice: she has the lowest bid and reached it before John. *)
Theorem auction1_winner :
  bidRounds 11 [1%N; 2%N; 3%N] (Examples.started Examples.auction1) 1
  = Some Examples.auction1_end
  ∧ CurrentBid <$> Auction.storer Examples.auction1_end !! 1%N
    = Some (of_Z 80)
  ∧ CurrentBid <$> Auction.storer Examples.auction1_end !! 2%N
    = Some (of_Z 80)
  ∧ CurrentBid <$> Auction.storer Examples.auction1_end !! 3%N
    = Some (of_Z 85)
  ∧ ∀ r, DetermineWinner Examples.auction1_end r →
         r = Ok {| Winner.ID := 1; Winner.Name := "Sasha" |}.
Proof.
  split_and!; [by vm_compute..|].
  intros r (bdrs & Hs & <-).
  assert (∀ b, b ∈ bdrs ↔ b ∈ records (Auction.storer Examples.auction1_end))
    as Helem by (intros b; by rewrite Hs).
  destruct (DetermineWinnerOf_min bdrs) as (B & Hin & -> & Hleast).
  - apply Forall_forall. intros b Hb%Helem. vm_compute in Hb.
    repeat (apply elem_of_cons in Hb as [->|Hb]; [done|]).
    by apply elem_of_nil in Hb.
  - intros ->. specialize (Helem (with_bid (toNewBidder Examples.sasha) (of_Z 80) 28)).
    destruct Helem as [_ Helem]. apply elem_of_nil in Helem; [done|].
    vm_compute. do 2 right. left.
  - assert (Hsasha : ∃ b, b ∈ bdrs ∧ Name b = "Sasha"
                          ∧ CurrentBid b = of_Z 80 ∧ LastBidTime b = 28).
    { eexists. split; [apply Helem; vm_compute; do 2 right; left|done]. }
    destruct Hsasha as (sasha & Hsin & Hname & Hcur & Htime).
    specialize (Hleast sasha Hsin). apply Helem in Hin. vm_compute in Hin.
    unfold beats in Hleast. rewrite Hcur, Htime in Hleast.
    repeat (apply elem_of_cons in Hin as [->|Hin]);
      [by vm_compute in Hleast..| |]; [done|by apply elem_of_nil in Hin].
Qed.

(** ** The store, operation by operation *)

Section store_operations.

Implicit Types (store : gmap N bidder) (b : bidder) (id : N).

Lemma records_ids store :
  keyed store → ID <$> records store = (map_to_list store).*1.
Proof.
  intros Hk. unfold records. rewrite <- list_fmap_compose.
  apply Forall_fmap_ext_1, Forall_forall.
  intros [id b] Hin%elem_of_map_to_list. simpl. by apply Hk.
Qed.

Lemma records_length store : length (records store) = size store.
Proof. unfold records. by rewrite length_fmap, length_map_to_list. Qed.

End store_operations.

(** X4. [AddBidder] inserts only under a free identifier.  When the
    identifier of the record is taken it fails with "bidder already exists"
    and the store is as before, so a stored record is never replaced by it;
    when the identifier is free it succeeds, [GetBidder] then returns the
    record, every other identifier is served as before and the store has
    one record more.  Adding the same identifier twice fails the second
    time. *)
Theorem AddBidder_insert_if_absent (store : gmap N bidder) (b : bidder) :
  (is_Some (store !! ID b) →
   AddBidder store b = (store, Some (errors_New "bidder already exists")))
  ∧ ((AddBidder store b).2 = None ↔ store !! ID b = None)
  ∧ (store !! ID b = None →
     GetBidder (AddBidder store b).1 (ID b) = Ok b
     ∧ (∀ id, id ≠ ID b →
          GetBidder (AddBidder store b).1 id = GetBidder store id)
     ∧ size (AddBidder store b).1 = S (size store))
  ∧ (∀ b', ID b' = ID b →
       AddBidder (AddBidder store b).1 b'
       = ((AddBidder store b).1, Some (errors_New "bidder already exists")))
  ∧ (keyed store → keyed (AddBidder store b).1).
Proof.
  unfold AddBidder, GetBidder. split_and!.
  - by intros [b0 ->].
  - destruct (store !! ID b); split; intros; by simplify_eq.
  - intros Hfree. rewrite Hfree. simpl. split_and!.
    + by rewrite lookup_insert_eq.
    + intros id Hne. by rewrite lookup_insert_ne.
    + by apply map_size_insert_None.
  - intros b' Heq. rewrite Heq.
    destruct (store !! ID b) as [b0|] eqn:Hb; simpl.
    + by rewrite Hb.
    + by rewrite lookup_insert_eq.
  - intros Hk. by apply AddBidder_keyed.
Qed.

(** X5. [GetBidder] and [UpdateBidder] round trips.  [GetBidder] fails with
    "bidder not found" exactly for the identifiers the store does not hold.
    After [UpdateBidder] of a record, [GetBidder] under its identifier
    returns that record and under any other identifier what it returned
    before.  Writing back the record just read changes nothing; updating
    twice with the same record is the same as once; of two updates under
    one identifier the later one stays; updates under different identifiers
    commute. *)
Theorem GetBidder_UpdateBidder_round_trip (store : gmap N bidder)
    (b b' : bidder) (id : N) :
  (GetBidder store id = Err (errors_New "bidder not found") ↔ id ∉ dom store)
  ∧ ((∃ b0, GetBidder store id = Ok b0) ↔ id ∈ dom store)
  ∧ GetBidder (UpdateBidder store b).1 (ID b) = Ok b
  ∧ (id ≠ ID b → GetBidder (UpdateBidder store b).1 id = GetBidder store id)
  ∧ (GetBidder store (ID b) = Ok b → (UpdateBidder store b).1 = store)
  ∧ (UpdateBidder (UpdateBidder store b).1 b).1 = (UpdateBidder store b).1
  ∧ (ID b' = ID b →
     (UpdateBidder (UpdateBidder store b).1 b').1 = (UpdateBidder store b').1)
  ∧ (ID b' ≠ ID b →
     (UpdateBidder (UpdateBidder store b).1 b').1
     = (UpdateBidder (UpdateBidder store b').1 b).1).
Proof.
  unfold GetBidder, UpdateBidder. simpl. split_and!.
  - rewrite not_elem_of_dom. destruct (store !! id); split; by intros.
  - rewrite elem_of_dom. destruct (store !! id) as [b0|]; split.
    + by eexists.
    + by eexists.
    + by intros [b0 [=]].
    + by intros [b0 [=]].
  - by rewrite lookup_insert_eq.
  - intros Hne. by rewrite lookup_insert_ne.
  - destruct (store !! ID b) as [b0|] eqn:Hb; intros [= ->].
    by apply insert_id.
  - apply insert_insert_eq.
  - intros ->. apply insert_insert_eq.
  - intros Hne. by apply insert_insert_ne.
Qed.

(** X6. What [ListBidders] returns.  There is always a slice to return;
    every slice has as many entries as the store has records and holds
    exactly the stored records; it is empty exactly for the empty store;
    two slices of the same store differ only in their order; and when each
    record is stored under its own identifier, as in every auction, no
    identifier occurs twice in it. *)
Theorem ListBidders_snapshot (store : gmap N bidder) :
  (∃ bdrs, ListBidders store bdrs)
  ∧ ∀ bdrs, ListBidders store bdrs →
      length bdrs = size store
      ∧ (∀ b, b ∈ bdrs ↔ ∃ id, store !! id = Some b)
      ∧ (bdrs = [] ↔ store = ∅)
      ∧ (∀ bdrs', ListBidders store bdrs' ↔ bdrs' ≡ₚ bdrs)
      ∧ (keyed store → NoDup (ID <$> bdrs)).
Proof.
  split; [exists (records store); unfold ListBidders; reflexivity|].
  intros bdrs Hs. split_and!.
  - unfold ListBidders in Hs. by rewrite Hs, records_length.
  - intros b. by apply ListBidders_elem.
  - split; [intros ->; by apply ListBidders_nil|].
    intros ->. by apply ListBidders_empty.
  - intros bdrs'. unfold ListBidders in *. by rewrite Hs.
  - intros Hk. unfold ListBidders in Hs. rewrite Hs, (records_ids _ Hk).
    apply NoDup_fst_map_to_list.
Qed.

(** ** Bids over the life of an auction *)

Section bid_history.

Implicit Types (a : Auction.t) (b : bidder) (id : N) (now : Z).

(** How the current bid of a record may differ from an earlier one: it is
    the same, or strictly above, or NaN. *)
Lemma same_or_up_trans (x y z : float64) :
  (y = x ∨ ltb x y = true ∨ is_nan y = true) →
  (z = y ∨ ltb y z = true ∨ is_nan z = true) →
  z = x ∨ ltb x z = true ∨ is_nan z = true.
Proof.
  intros Hxy [->|[Hyz|Hz]]; [done| |by auto].
  destruct Hxy as [->|[Hxy|Hy]]; [by auto| |].
  - right. left. by eapply ltb_trans.
  - apply ltb_key in Hyz as (k & _ & Hk & _). apply key_is_nan in Hy.
    congruence.
Qed.

Lemma same_or_up_not_below (x y : float64) :
  (y = x ∨ ltb x y = true ∨ is_nan y = true) → ltb y x = false.
Proof.
  intros [->|[Hxy|Hy]].
  - apply ltb_irrefl.
  - apply not_true_is_false. intros Hyx.
    pose proof (ltb_trans _ _ _ Hxy Hyx) as H. by rewrite ltb_irrefl in H.
  - apply not_true_is_false. intros (k & _ & Hk & _)%ltb_key.
    apply key_is_nan in Hy. congruence.
Qed.

Lemma PlaceBid_same_or_up now a id id' b :
  keyed (Auction.storer a) →
  Auction.storer a !! id' = Some b →
  ∃ b', Auction.storer (PlaceBid now a id).1 !! id' = Some b'
        ∧ (CurrentBid b' = CurrentBid b
           ∨ ltb (CurrentBid b) (CurrentBid b') = true
           ∨ is_nan (CurrentBid b') = true).
Proof.
  intros Hk Hb. destruct (decide (id = id')) as [->|Hne].
  - destruct (PlaceBid now a id') as [a' [e|]] eqn:Hcall; simpl.
    + apply PlaceBid_failure in Hcall as ->. eauto.
    + destruct (PlaceBid_stores _ _ _ _ _ Hk Hb Hcall) as (Hst & _ & Hle).
      eexists. split; [exact Hst|]. simpl.
      destruct (is_nan (bidAmount_of b)) eqn:Hnan; [by auto|].
      right. left. destruct (add_nan _ _ Hnan) as [Hcur _].
      by apply (leb_false_gtb _ _ Hnan Hcur).
  - rewrite PlaceBid_other by done. eauto.
Qed.

Lemma PlaceBids_same_or_up calls a id b :
  keyed (Auction.storer a) →
  Auction.storer a !! id = Some b →
  ∃ b', Auction.storer (PlaceBids a calls) !! id = Some b'
        ∧ (CurrentBid b' = CurrentBid b
           ∨ ltb (CurrentBid b) (CurrentBid b') = true
           ∨ is_nan (CurrentBid b') = true).
Proof.
  revert a b. induction calls as [|[now id'] calls IH]; intros a b Hk Hb.
  { exists b. auto. }
  destruct (PlaceBid_same_or_up now a id' id b Hk Hb) as (b1 & Hb1 & H1).
  destruct (IH _ b1 (PlaceBid_keyed now a id' Hk) Hb1) as (b2 & Hb2 & H2).
  exists b2. split; [done|]. by eapply same_or_up_trans.
Qed.

End bid_history.

(** X7. The current bid of a bidder never goes down.  Through any sequence
    of [PlaceBid] calls, for any bidders and in any order, the record of a
    bidder stays in the store, and its current bid is the one it had, or
    strictly above it, or NaN (which it can only become through a NaN sum);
    in no case is it strictly below the one it had. *)
Theorem CurrentBid_never_decreases (a : Auction.t)
    (calls : list (Z * N)) (id : N) (b : bidder) :
  keyed (Auction.storer a) →
  Auction.storer a !! id = Some b →
  ∃ b', Auction.storer (PlaceBids a calls) !! id = Some b'
        ∧ ltb (CurrentBid b') (CurrentBid b) = false
        ∧ (CurrentBid b' = CurrentBid b
           ∨ ltb (CurrentBid b) (CurrentBid b') = true
           ∨ is_nan (CurrentBid b') = true).
Proof.
  intros Hk Hb.
  destruct (PlaceBids_same_or_up calls a id b Hk Hb) as (b' & Hb' & Hup).
  exists b'. split_and!; [done| |done]. by apply same_or_up_not_below.
Qed.

Lemma CurrentBid_never_decreases_witness :
  ∃ b', Auction.storer
          (PlaceBids (Examples.started Examples.auction1)
             [(1, 1%N); (2, 2%N); (3, 1%N); (4, 7%N)]) !! 1%N = Some b'
        ∧ ltb (CurrentBid b') (of_Z 50) = false
        ∧ (CurrentBid b' = of_Z 50
           ∨ ltb (of_Z 50) (CurrentBid b') = true
           ∨ is_nan (CurrentBid b') = true).
Proof.
  apply (CurrentBid_never_decreases (Examples.started Examples.auction1)
           [(1, 1%N); (2, 2%N); (3, 1%N); (4, 7%N)] 1
           (toNewBidder Examples.sasha)).
  - apply (NewAuction_keyed 9 Examples.auction1). reflexivity.
  - reflexivity.
Defined.

(** X8. The bidders an auction knows are those it was built with.  In
    every auction reachable from [NewAuction] through [PlaceBid], a call
    for an identifier that is not in the configuration fails with the
    wrapped "bidder not found" and changes nothing, and a call for an
    identifier of the configuration never fails that way: its bidder is
    there. *)
Theorem PlaceBid_knows_configured_bidders (na : NewAuctionConfig.t)
    (a : Auction.t) (now : Z) (id : N) :
  reachable na a →
  (id ∉ NewBidder.ID <$> NewAuctionConfig.Bidders na →
   PlaceBid now a id = (a, Some err_not_found))
  ∧ (id ∈ NewBidder.ID <$> NewAuctionConfig.Bidders na →
     is_Some (Auction.storer a !! id)
     ∧ (PlaceBid now a id).2 ≠ Some err_not_found).
Proof.
  intros Hr. destruct (reachable_fields _ _ Hr) as (Hrec & Hall & _). split.
  - intros Hid. rewrite PlaceBid_unfold.
    destruct (Auction.storer a !! id) as [b|] eqn:Hb; [|done].
    destruct (Hrec _ _ Hb) as (nb & Hin & _ & -> & _).
    exfalso. apply Hid. by apply list_elem_of_fmap_2.
  - intros (nb & -> & Hin)%list_elem_of_fmap.
    pose proof (Hall nb Hin) as [b Hb]. split; [by eexists|].
    rewrite PlaceBid_unfold, Hb. by repeat case_match.
Qed.

Lemma PlaceBid_knows_configured_bidders_witness :
  PlaceBid 5 Examples.sasha_at_max 7
  = (Examples.sasha_at_max, Some err_not_found)
  ∧ is_Some (Auction.storer Examples.sasha_at_max !! 3%N)
  ∧ (PlaceBid 5 Examples.sasha_at_max 3).2 ≠ Some err_not_found.
Proof.
  assert (reachable Examples.auction1 Examples.sasha_at_max) as Hr.
  { apply PlaceBids_reachable. apply (reachable_new _ 9). reflexivity. }
  split.
  - apply (PlaceBid_knows_configured_bidders Examples.auction1
             Examples.sasha_at_max 5 7 Hr).
    intros Hin. repeat (apply elem_of_cons in Hin as [Heq|Hin]; [done|]).
    by apply elem_of_nil in Hin.
  - apply (PlaceBid_knows_configured_bidders Examples.auction1
             Examples.sasha_at_max 5 3 Hr).
    do 2 right. left.
Defined.

(** ** Construction and the order of the input *)

(** X9. Whether a configuration is accepted, and the auction built from
    it, do not depend on the order in which the bidders are supplied: for
    two configurations with the same bidders in different orders,
    validation passes for both or for neither, and when it passes
    [NewAuction] (drawing the same identifier) returns the same auction,
    with the same store.  (Which error is reported when validation fails
    does depend on the order.) *)
Theorem NewAuction_order_independent (fresh : N)
    (na na' : NewAuctionConfig.t) :
  NewAuctionConfig.Bidders na ≡ₚ NewAuctionConfig.Bidders na' →
  (validateAuctionData na = None ↔ validateAuctionData na' = None)
  ∧ (∀ a, NewAuction fresh na = Ok a → NewAuction fresh na' = Ok a).
Proof.
  intros Hperm.
  assert (validateAuctionData na = None ↔ validateAuctionData na' = None)
    as Hvalid.
  { rewrite !validateAuctionData_None. by rewrite Hperm. }
  split; [done|]. intros a Hnew.
  pose proof (NewAuction_Ok_valid _ _ _ Hnew) as Hv.
  destruct (NewAuction_valid fresh na Hv) as (a1 & Hnew1 & Hid1 & Hlook1).
  assert (a1 = a) as -> by congruence.
  destruct (NewAuction_valid fresh na' (proj1 Hvalid Hv))
    as (a2 & Hnew2 & Hid2 & Hlook2).
  rewrite Hnew2. f_equal.
  destruct a as [store1 id1], a2 as [store2 id2]. simpl in *. subst.
  f_equal. apply map_eq. intros id. apply option_eq. intros b.
  rewrite Hlook1, Hlook2. by setoid_rewrite Hperm.
Qed.

Lemma NewAuction_order_independent_witness :
  (validateAuctionData Examples.auction1 = None ↔
   validateAuctionData Examples.auction1_reversed = None)
  ∧ (∀ a, NewAuction 9 Examples.auction1 = Ok a →
          NewAuction 9 Examples.auction1_reversed = Ok a).
Proof.
  apply (NewAuction_order_independent 9 Examples.auction1
           Examples.auction1_reversed).
  exact (Permutation_rev [Examples.sasha; Examples.john; Examples.pat]).
Defined.

(** ** The comparison of DetermineWinner *)

(** X10. [isWinner] against a current winner with a name is a strict
    order on bidders: no bidder replaces itself, of two bidders at most one
    replaces the other, and a bidder that replaces one that replaces a third
    replaces the third.  Against a current winner with an empty name it is
    always true. *)
Theorem isWinner_strict_order :
  (∀ w b, ¬ named w → isWinner w b = true)
  ∧ (∀ b, named b → isWinner b b = false)
  ∧ (∀ b1 b2, named b1 → named b2 →
       isWinner b1 b2 = true → isWinner b2 b1 = false)
  ∧ (∀ b1 b2 b3, named b1 → named b2 →
       isWinner b1 b2 = true → isWinner b2 b3 = true → isWinner b1 b3 = true).
Proof.
  split_and!.
  - intros w b Hw. by apply isWinner_unnamed.
  - intros b Hb. rewrite isWinner_named by done. apply beats_irrefl.
  - intros b1 b2 H1 H2. rewrite !isWinner_named by done. apply beats_asym.
  - intros b1 b2 b3 H1 H2. rewrite !isWinner_named by done.
    intros H21 H32. by eapply beats_trans.
Qed.

(** X11. When every stored bidder has a name and one of them is ahead of
    every other one (a strictly lower current bid, or an equal one placed
    strictly earlier), [DetermineWinner] returns that bidder, whatever the
    order in which [ListBidders] lists the store. *)
Theorem DetermineWinner_unique_lowest (a : Auction.t) (W : bidder)
    (r : result Winner.t) :
  (∀ id b, Auction.storer a !! id = Some b → named b) →
  (∃ id, Auction.storer a !! id = Some W) →
  (∀ id b, Auction.storer a !! id = Some b → b ≠ W → beats W b = true) →
  DetermineWinner a r →
  r = Ok (winner_of W).
Proof.
  intros Hnamed [idW HW] Hahead (bdrs & Hs & <-).
  destruct (DetermineWinnerOf_min bdrs) as (B & Hin & -> & Hleast).
  - by apply (ListBidders_Forall _ _ _ Hs).
  - intros ->. apply ListBidders_nil in Hs. by rewrite Hs in HW.
  - destruct (decide (B = W)) as [->|Hne]; [done|].
    apply (ListBidders_elem _ _ _ Hs) in Hin as [id HB].
    pose proof (Hahead _ _ HB Hne) as Hbeats.
    rewrite Hleast in Hbeats; [done|]. apply (ListBidders_elem _ _ _ Hs). eauto.
Qed.

Lemma DetermineWinner_unique_lowest_witness :
  DetermineWinnerOf (records (Auction.storer Examples.auction1_end))
  = Ok {| Winner.ID := 1; Winner.Name := "Sasha" |}.
Proof.
  apply (DetermineWinner_unique_lowest Examples.auction1_end
           (with_bid (toNewBidder Examples.sasha) (of_Z 80) 28)).
  - change (map_Forall (λ _ b, named b)
              (Auction.storer Examples.auction1_end)).
    apply (bool_decide_unpack _). by vm_compute.
  - exists 1%N. by vm_compute.
  - change (map_Forall
              (λ _ b,
                 b ≠ with_bid (toNewBidder Examples.sasha) (of_Z 80) 28 →
                 beats (with_bid (toNewBidder Examples.sasha) (of_Z 80) 28) b
                 = true)
              (Auction.storer Examples.auction1_end)).
    apply (bool_decide_unpack _). by vm_compute.
  - exists (records (Auction.storer Examples.auction1_end)).
    split; [unfold ListBidders; reflexivity | reflexivity].
Defined.

(** ** Bidders whose numbers are not numbers *)

Section nan_bidders.

Implicit Types (a : Auction.t) (b : bidder) (id : N) (now : Z).

Lemma add_is_nan (x y : float64) :
  is_nan x = true ∨ is_nan y = true → is_nan (add x y) = true.
Proof. destruct x, y; simpl; intros [?|?]; done. Qed.

Lemma nan_compares_false (x y : float64) :
  is_nan x = true → ltb x y = false ∧ gtb x y = false ∧ leb x y = false.
Proof. destruct x; try done. intros _. by destruct y. Qed.

Lemma checks_nan b : is_nan (bidAmount_of b) = true → checks b = None.
Proof.
  intros Hnan. unfold checks.
  destruct (nan_compares_false (bidAmount_of b) (StartingBid b) Hnan) as (-> & _).
  destruct (nan_compares_false (bidAmount_of b) (MaxBid b) Hnan) as (_ & -> & _).
  by destruct (nan_compares_false (bidAmount_of b) (CurrentBid b) Hnan)
    as (_ & _ & ->).
Qed.

Lemma PlaceBid_adrift now a id id' :
  adrift id a → adrift id (PlaceBid now a id').1.
Proof.
  intros (Hk & b & Hb & Hnan). split; [by apply PlaceBid_keyed|].
  destruct (decide (id' = id)) as [->|Hne].
  - rewrite PlaceBid_by_checks, Hb, (checks_nan b Hnan). simpl.
    rewrite (Hk _ _ Hb), lookup_insert_eq. eexists. split; [done|].
    apply add_is_nan. by left.
  - rewrite PlaceBid_other by done. eauto.
Qed.

Lemma PlaceBids_adrift calls a id : adrift id a → adrift id (PlaceBids a calls).
Proof.
  revert a. induction calls as [|[now id'] calls IH]; intros a Ha; [done|].
  simpl. apply IH. by apply PlaceBid_adrift.
Qed.

Lemma bidRound_PlaceBids ids a clock active :
  ∃ calls, (bidRound ids a clock active).1.1 = PlaceBids a calls.
Proof.
  revert a clock active.
  induction ids as [|id ids IH]; intros a clock active; simpl.
  { by exists []. }
  destruct (PlaceBid clock a id) as [a' [e|]] eqn:Hcall.
  - destruct (errors_Is_ErrExceededMaxBid e).
    + exists [(clock, id)]. simpl. by rewrite Hcall.
    + destruct (IH a' (clock + 1) active) as [calls ->].
      exists ((clock, id) :: calls). simpl. by rewrite Hcall.
  - destruct (IH a' (clock + 1) true) as [calls ->].
    exists ((clock, id) :: calls). simpl. by rewrite Hcall.
Qed.

Lemma bidRound_active ids a clock : (bidRound ids a clock true).2 = true.
Proof.
  revert a clock. induction ids as [|id ids IH]; intros a clock; simpl; [done|].
  destruct (PlaceBid clock a id) as [a' [e|]]; [|apply IH].
  destruct (errors_Is_ErrExceededMaxBid e); [done|apply IH].
Qed.

(** A pass in which no call succeeds leaves the auction as it was. *)
Lemma bidRound_idle ids a clock :
  (bidRound ids a clock false).2 = false →
  (bidRound ids a clock false).1.1 = a.
Proof.
  revert a clock. induction ids as [|id ids IH]; intros a clock; simpl; [done|].
  destruct (PlaceBid clock a id) as [a' [e|]] eqn:Hcall.
  - apply PlaceBid_failure in Hcall as ->.
    destruct (errors_Is_ErrExceededMaxBid e); [done|apply IH].
  - by rewrite bidRound_active.
Qed.

End nan_bidders.

(** X12. A NaN never stops a bidder.  [validateBidder] accepts a NaN
    increment (and a NaN maximum) beside a positive starting bid.  For a
    stored bidder whose current bid or increment is NaN, the sum is NaN,
    and then, after any calls whatever, a call of [PlaceBid] for that bidder
    succeeds, leaves its current bid NaN, and never returns
    [ErrExceededMaxBid]; the bidding loop of the tests, with such a bidder
    listed first, ends for no number of passes. *)
Theorem NaN_bidder_never_stops :
  (∀ nb, leb (NewBidder.StartingBid nb) zero = false →
         (is_nan (NewBidder.MaxBid nb) = true
          ∨ ltb (NewBidder.MaxBid nb) (NewBidder.StartingBid nb) = false) →
         is_nan (NewBidder.AutoIncrement nb) = true →
         validateBidder nb = None)
  ∧ (∀ b, is_nan (CurrentBid b) = true ∨ is_nan (AutoIncrement b) = true →
          is_nan (bidAmount_of b) = true)
  ∧ (∀ a id b calls now,
       keyed (Auction.storer a) →
       Auction.storer a !! id = Some b →
       is_nan (bidAmount_of b) = true →
       ∃ b', Auction.storer (PlaceBids a calls) !! id = Some b'
           ∧ PlaceBid now (PlaceBids a calls) id
             = (after_bid (PlaceBids a calls) b' now, None)
           ∧ is_nan (bidAmount_of b') = true)
  ∧ (∀ fuel a id rest clock b,
       keyed (Auction.storer a) →
       Auction.storer a !! id = Some b →
       is_nan (bidAmount_of b) = true →
       bidRounds fuel (id :: rest) a clock = None).
Proof.
  split_and!.
  - intros nb Hstart Hmax Hinc. apply validateBidder_None. split_and!.
    + done.
    + destruct Hmax as [Hnan|?]; [|done].
      by destruct (nan_compares_false _ (NewBidder.StartingBid nb) Hnan)
        as (? & _).
    + by destruct (nan_compares_false _ zero Hinc) as (_ & _ & ?).
  - intros b. unfold bidAmount_of. apply add_is_nan.
  - intros a id b calls now Hk Hb Hnan.
    destruct (PlaceBids_adrift calls a id) as (_ & b' & Hb' & Hnan').
    { split; [done|]. eauto. }
    exists b'. split_and!; [done| |done].
    by rewrite PlaceBid_by_checks, Hb', (checks_nan b' Hnan').
  - intros fuel a id rest clock b Hk Hb Hnan.
    assert (adrift id a) as Ha by (split; [done|]; eauto).
    clear b Hk Hb Hnan. revert a clock Ha.
    induction fuel as [|fuel IH]; intros a clock Ha; [done|].
    cbn [bidRounds].
    destruct (bidRound (id :: rest) a clock false) as [[a' clock'] active]
      eqn:Hpass.
    assert (active = true ∧ adrift id a') as [-> Ha'].
    { destruct Ha as (Hk & b & Hb & Hnan). simpl in Hpass.
      rewrite PlaceBid_by_checks, Hb, (checks_nan b Hnan) in Hpass. split.
      - pose proof (bidRound_active rest (after_bid a b clock) (clock + 1)) as H.
        rewrite Hpass in H. done.
      - destruct (bidRound_PlaceBids (id :: rest) a clock false)
          as [calls Hcalls].
        simpl in Hcalls.
        rewrite PlaceBid_by_checks, Hb, (checks_nan b Hnan), Hpass in Hcalls.
        simpl in Hcalls. rewrite Hcalls. apply PlaceBids_adrift.
        split; [done|]. eauto. }
    by apply IH.
Qed.

Lemma NaN_bidder_never_stops_witness :
  validateBidder Examples.drifter = None
  ∧ (∃ b', Auction.storer
             (PlaceBids (Examples.started Examples.drifting)
                [(1, 1%N); (2, 2%N); (3, 1%N)]) !! 1%N = Some b'
         ∧ PlaceBid 4
             (PlaceBids (Examples.started Examples.drifting)
                [(1, 1%N); (2, 2%N); (3, 1%N)]) 1
           = (after_bid
                (PlaceBids (Examples.started Examples.drifting)
                   [(1, 1%N); (2, 2%N); (3, 1%N)]) b' 4, None)
         ∧ is_nan (bidAmount_of b') = true)
  ∧ bidRounds 1000 [1%N; 2%N] (Examples.started Examples.drifting) 1 = None.
Proof.
  destruct NaN_bidder_never_stops as (Hvalid & _ & Hcall & Hloop).
  assert (keyed (Auction.storer (Examples.started Examples.drifting))) as Hk.
  { apply (NewAuction_keyed 9 Examples.drifting). reflexivity. }
  split_and!.
  - apply Hvalid; [reflexivity|right; reflexivity|reflexivity].
  - apply (Hcall _ 1%N (toNewBidder Examples.drifter)); [done|reflexivity..].
  - apply (Hloop 1000%nat _ 1%N [2%N] 1 (toNewBidder Examples.drifter));
      [done|reflexivity..].
Defined.

(** X13. The bidding loop of the tests.  When the loop returns, the
    auction it returns is the initial one after some sequence of [PlaceBid]
    calls, and a further pass over the bidders places no bid and changes
    nothing.  The loop returns at once, without any bid, when the call for
    the bidder listed first fails with [ErrExceededMaxBid], whatever the
    bidders after it could still bid. *)
Theorem bidRounds_result :
  (∀ fuel ids a clock a',
     bidRounds fuel ids a clock = Some a' →
     (∃ calls, a' = PlaceBids a calls)
     ∧ (∃ clock', (bidRound ids a' clock' false).1.1 = a'
                  ∧ (bidRound ids a' clock' false).2 = false))
  ∧ (∀ fuel id rest a clock e,
       (PlaceBid clock a id).2 = Some e →
       errors_Is_ErrExceededMaxBid e = true →
       bidRounds (S fuel) (id :: rest) a clock = Some a).
Proof.
  split.
  - intros fuel ids a clock a' Hloop. split.
    + revert a clock Hloop.
      induction fuel as [|fuel IH]; intros a clock; [done|].
      cbn [bidRounds].
      destruct (bidRound ids a clock false) as [[a1 clock1] active] eqn:Hpass.
      destruct (bidRound_PlaceBids ids a clock false) as [calls Hcalls].
      rewrite Hpass in Hcalls. simpl in Hcalls. destruct active.
      * intros [calls' ->]%IH. exists (calls ++ calls'). subst a1.
        unfold PlaceBids. by rewrite fold_left_app.
      * intros [= <-]. by exists calls.
    + revert a clock Hloop.
      induction fuel as [|fuel IH]; intros a clock; [done|].
      cbn [bidRounds].
      destruct (bidRound ids a clock false) as [[a1 clock1] active] eqn:Hpass.
      destruct active; [apply IH|]. intros [= <-].
      pose proof (bidRound_idle ids a clock) as Hidle.
      rewrite Hpass in Hidle. simpl in Hidle. specialize (Hidle eq_refl).
      subst a1. exists clock. by rewrite Hpass.
  - intros fuel id rest a clock e He His. cbn [bidRounds bidRound].
    destruct (PlaceBid clock a id) as [a1 [e1|]] eqn:Hcall; [|done].
    simpl in He. injection He as ->. rewrite His.
    by apply PlaceBid_failure in Hcall as ->.
Qed.

Lemma bidRounds_result_witness :
  ((∃ calls, Examples.auction1_end
             = PlaceBids (Examples.started Examples.auction1) calls)
   ∧ (∃ clock',
        (bidRound [1%N; 2%N; 3%N] Examples.auction1_end clock' false).1.1
        = Examples.auction1_end
        ∧ (bidRound [1%N; 2%N; 3%N] Examples.auction1_end clock' false).2
          = false))
  ∧ bidRounds 1 [1%N; 2%N; 3%N] Examples.sasha_at_max 11
    = Some Examples.sasha_at_max.
Proof.
  destruct bidRounds_result as [Hresult Hcap]. split.
  - apply (Hresult 11%nat [1%N; 2%N; 3%N]
             (Examples.started Examples.auction1) 1).
    by vm_compute.
  - apply (Hcap 0%nat 1%N [2%N; 3%N] Examples.sasha_at_max 11
             (err_exceeded Examples.sasha_80)).
    + by vm_compute.
    + reflexivity.
Defined.

(** ** Parallel calls for one bidder *)

Section one_bidder.

Implicit Types (store : gmap N bidder) (pool : list goroutine) (b : bidder).

Lemma sched_step_read store pool i now h id rest b :
  pool !! i = Some (mkGoroutine h None (id :: rest)) →
  store !! id = Some b →
  checks b = None →
  sched_step (i, now) (store, pool)
  = Some (store, <[i := mkGoroutine h (Some (id, b)) rest]> pool).
Proof.
  intros Hg Hb Hc. unfold sched_step, advance, GetBidder. simpl.
  rewrite Hg. simpl. by rewrite Hb, Hc.
Qed.

Lemma sched_step_write store pool i now h id rest b :
  pool !! i = Some (mkGoroutine h (Some (id, b)) rest) →
  sched_step (i, now) (store, pool)
  = Some (<[ID b := with_bid b (bidAmount_of b) now]> store,
          <[i := mkGoroutine (h ++ [(now, id)]) None rest]> pool).
Proof.
  intros Hg. unfold sched_step, advance, UpdateBidder. simpl. by rewrite Hg.
Qed.

End one_bidder.

(** X14. [PlaceBid] reads and writes the store in two separate accesses,
    so two parallel calls for the same bidder can lose a bid.  Take a
    stored bidder for whom one bid is accepted and, after it, a second one
    would be accepted too.  In the interleaving where both goroutines read
    before either writes, both calls pass the checks and return without an
    error, yet the store ends with the current bid raised by one increment
    only; the same two calls one after the other raise it twice, to an
    amount that is strictly above when it is a number. *)
Theorem parallel_bids_same_bidder_lose_update (store : gmap N bidder)
    (aid id : N) (b : bidder) (t1 t2 t3 t4 : Z) :
  store !! id = Some b →
  ID b = id →
  checks b = None →
  checks (with_bid b (bidAmount_of b) t3) = None →
  let once := with_bid b (bidAmount_of b) t4 in
  let twice :=
    with_bid (with_bid b (bidAmount_of b) t3)
      (add (bidAmount_of b) (AutoIncrement b)) t4 in
  run [(0%nat, t1); (1%nat, t2); (0%nat, t3); (1%nat, t4)]
      (store, [spawn [id]; spawn [id]])
  = Some (<[id := once]> store,
          [mkGoroutine [(t3, id)] None []; mkGoroutine [(t4, id)] None []])
  ∧ Auction.storer
      (PlaceBids {| Auction.storer := store; Auction.ID := aid |}
         [(t3, id); (t4, id)]) !! id = Some twice
  ∧ (is_nan (CurrentBid twice) = false →
     ltb (CurrentBid once) (CurrentBid twice) = true).
Proof.
  intros Hb Hid Hc1 Hc2 once twice. split_and!.
  - unfold spawn. cbn [run].
    rewrite (sched_step_read store _ 0 t1 [] id [] b) by done. cbn [run].
    rewrite (sched_step_read store _ 1 t2 [] id [] b) by done. cbn [run].
    rewrite (sched_step_write store _ 0 t3 [] id [] b) by done. cbn [run].
    rewrite (sched_step_write _ _ 1 t4 [] id [] b) by done. cbn [run].
    simpl. by rewrite Hid, insert_insert_eq.
  - set (a := {| Auction.storer := store; Auction.ID := aid |}).
    assert (Auction.storer a !! id = Some b) as Ha by done.
    assert (PlaceBid t3 a id = (after_bid a b t3, None)) as Hfirst
      by (by rewrite PlaceBid_by_checks, Ha, Hc1).
    assert (Auction.storer (after_bid a b t3) !! id
            = Some (with_bid b (bidAmount_of b) t3)) as Ha'
      by (simpl; by rewrite Hid, lookup_insert_eq).
    unfold PlaceBids. cbn [fold_left fst snd]. rewrite Hfirst. cbn [fst].
    rewrite PlaceBid_by_checks, Ha', Hc2.
    cbn [fst after_bid Auction.storer with_bid ID]. rewrite Hid.
    by rewrite lookup_insert_eq.
  - simpl. intros Hnan. unfold checks in Hc2. simpl in Hc2.
    unfold bidAmount_of in Hc2 at 1 2 3. simpl in Hc2.
    destruct (add_nan _ _ Hnan) as [Hamt _].
    apply (leb_false_gtb _ _ Hnan Hamt). by repeat case_match.
Qed.

Lemma parallel_bids_same_bidder_lose_update_witness :
  run [(0%nat, 1); (1%nat, 2); (0%nat, 3); (1%nat, 4)]
      (Auction.storer (Examples.started Examples.auction1),
       [spawn [1%N]; spawn [1%N]])
  = Some (<[1%N := with_bid (toNewBidder Examples.sasha) (of_Z 53) 4]>
            (Auction.storer (Examples.started Examples.auction1)),
          [mkGoroutine [(3, 1%N)] None []; mkGoroutine [(4, 1%N)] None []])
  ∧ Auction.storer
      (PlaceBids (Examples.started Examples.auction1) [(3, 1%N); (4, 1%N)])
      !! 1%N
    = Some (with_bid (with_bid (toNewBidder Examples.sasha) (of_Z 53) 3)
              (of_Z 56) 4)
  ∧ (is_nan (of_Z 56) = false → ltb (of_Z 53) (of_Z 56) = true).
Proof.
  apply (parallel_bids_same_bidder_lose_update
           (Auction.storer (Examples.started Examples.auction1)) 9 1
           (toNewBidder Examples.sasha) 1 2 3 4);
    by vm_compute.
Defined.

(** ** Errors, wrapped and lasting *)

Section error_chains.

Implicit Types (a : Auction.t) (b : bidder) (id : N) (now : Z).

Lemma validateBidder_reason (nb : NewBidder.t) (e : error) :
  validateBidder nb = Some e →
  errors_Is_ErrExceededMaxBid e = false ∧ Unwrap e = None.
Proof. unfold validateBidder. repeat case_match; by intros [= <-]. Qed.

Lemma validateBidders_cause (bidders : list NewBidder.t)
    (seenIDs : gmap N bool) (e : error) :
  validateBidders seenIDs bidders = Some e →
  errors_Is_ErrExceededMaxBid e = false
  ∧ (Unwrap e = None
     ∨ ∃ nb reason, nb ∈ bidders ∧ Unwrap e = Some reason
                    ∧ validateBidder nb = Some reason).
Proof.
  revert seenIDs. induction bidders as [|nb bidders IH]; intros seenIDs; [done|].
  simpl. destruct (seenIDs !! NewBidder.ID nb).
  { intros [= <-]. by auto. }
  destruct (validateBidder nb) as [reason|] eqn:Hnb.
  - intros [= <-]. simpl.
    split; [by apply (validateBidder_reason nb)|]. right.
    exists nb, reason. split_and!; [by left|done..].
  - intros [His [?|(nb' & reason & Hin & ? & ?)]]%IH; split; try done;
      [by left|]. right. exists nb', reason. split_and!; [by right|done..].
Qed.

(** The error of a call depends on the record stored under the identifier
    only, not on the instant nor on the rest of the store. *)
Lemma PlaceBid_error_of_record now now' a a' id :
  Auction.storer a !! id = Auction.storer a' !! id →
  (PlaceBid now a id).2 = (PlaceBid now' a' id).2.
Proof.
  intros Heq. rewrite !PlaceBid_by_checks, <- Heq.
  destruct (Auction.storer a !! id) as [b|]; [|done].
  by destruct (checks b).
Qed.

Lemma PlaceBids_failed calls a id now e :
  keyed (Auction.storer a) →
  (PlaceBid now a id).2 = Some e →
  Auction.storer (PlaceBids a calls) !! id = Auction.storer a !! id.
Proof.
  intros Hk He. revert a Hk He.
  induction calls as [|[now' id'] calls IH]; intros a Hk He; [done|].
  simpl.
  assert (Auction.storer (PlaceBid now' a id').1 !! id = Auction.storer a !! id)
    as Hstep.
  { destruct (decide (id' = id)) as [->|Hne]; [|by apply PlaceBid_other].
    rewrite (PlaceBid_error_of_record now now' a a id eq_refl) in He.
    destruct (PlaceBid now' a id) as [a1 e1] eqn:Hcall. simpl in *. subst e1.
    by apply PlaceBid_failure in Hcall as ->. }
  rewrite <- Hstep. apply IH; [by apply PlaceBid_keyed|].
  by rewrite (PlaceBid_error_of_record now now _ a id Hstep).
Qed.

End error_chains.

(** X15. What the errors wrap.  The error of [NewAuction] wraps the error
    of [validateAuctionData]; that one either wraps nothing (too few
    bidders, duplicate identifier) or wraps the reason [validateBidder] gave
    for one of the bidders supplied; the reasons and the "no winner" of
    [DetermineWinner] wrap nothing.  None of these errors is, or wraps,
    [ErrExceededMaxBid]: only [PlaceBid] returns it. *)
Theorem errors_outside_PlaceBid :
  (∀ fresh na e,
     NewAuction fresh na = Err e →
     errors_Is_ErrExceededMaxBid e = false
     ∧ ∃ cause, Unwrap e = Some cause ∧ validateAuctionData na = Some cause)
  ∧ (∀ na e,
       validateAuctionData na = Some e →
       errors_Is_ErrExceededMaxBid e = false
       ∧ (Unwrap e = None
          ∨ ∃ nb reason, nb ∈ NewAuctionConfig.Bidders na
                         ∧ Unwrap e = Some reason
                         ∧ validateBidder nb = Some reason))
  ∧ (∀ nb e,
       validateBidder nb = Some e →
       errors_Is_ErrExceededMaxBid e = false ∧ Unwrap e = None)
  ∧ (∀ bdrs e,
       DetermineWinnerOf bdrs = Err e →
       errors_Is_ErrExceededMaxBid e = false ∧ Unwrap e = None).
Proof.
  assert (∀ na e,
       validateAuctionData na = Some e →
       errors_Is_ErrExceededMaxBid e = false
       ∧ (Unwrap e = None
          ∨ ∃ nb reason, nb ∈ NewAuctionConfig.Bidders na
                         ∧ Unwrap e = Some reason
                         ∧ validateBidder nb = Some reason)) as Hvalidate.
  { intros na e. unfold validateAuctionData. case_match.
    - intros [= <-]. by auto.
    - apply validateBidders_cause. }
  split_and!.
  - intros fresh na e Hnew.
    destruct (validateAuctionData na) as [cause|] eqn:Hv.
    + rewrite (NewAuction_invalid fresh na cause Hv) in Hnew.
      injection Hnew as <-. simpl. split; [by apply (Hvalidate na)|eauto].
    + destruct (NewAuction_valid fresh na Hv) as (a & Ha & _). congruence.
  - exact Hvalidate.
  - apply validateBidder_reason.
  - by intros bdrs e [_ ->]%DetermineWinnerOf_Err.
Qed.

(** X16. A failed bid stays failed.  Once a call of [PlaceBid] for a bidder
    has returned an error, whichever it is, the record of that bidder (or
    its absence) stays as it is through any later calls, for this bidder or
    for others, and every later call for this bidder returns the same
    error. *)
Theorem PlaceBid_failure_is_permanent (a : Auction.t) (id : N) (now : Z)
    (e : error) (calls : list (Z * N)) (now' : Z) :
  keyed (Auction.storer a) →
  (PlaceBid now a id).2 = Some e →
  Auction.storer (PlaceBids a calls) !! id = Auction.storer a !! id
  ∧ PlaceBid now' (PlaceBids a calls) id = (PlaceBids a calls, Some e).
Proof.
  intros Hk He. pose proof (PlaceBids_failed calls a id now e Hk He) as Hsame.
  split; [done|].
  pose proof (PlaceBid_error_of_record now' now _ a id Hsame) as Herr.
  rewrite He in Herr.
  destruct (PlaceBid now' (PlaceBids a calls) id) as [a1 e1] eqn:Hcall.
  simpl in Herr. subst e1. by apply PlaceBid_failure in Hcall as ->.
Qed.

Lemma PlaceBid_failure_is_permanent_witness :
  Auction.storer
    (PlaceBids (Examples.started Examples.hoarding) [(2, 2%N); (3, 1%N)]) !! 1%N
  = Auction.storer (Examples.started Examples.hoarding) !! 1%N
  ∧ PlaceBid 4
      (PlaceBids (Examples.started Examples.hoarding) [(2, 2%N); (3, 1%N)]) 1
    = (PlaceBids (Examples.started Examples.hoarding) [(2, 2%N); (3, 1%N)],
       Some (err_not_increasing (toNewBidder Examples.hoarder))).
Proof.
  apply (PlaceBid_failure_is_permanent (Examples.started Examples.hoarding)
           1 1 (err_not_increasing (toNewBidder Examples.hoarder))).
  - apply (NewAuction_keyed 9 Examples.hoarding). reflexivity.
  - by vm_compute.
Defined.
